(** * Shamir share checking: a shallow embedding of [secret_sharing.js]

    The JavaScript source reads share records from a JSON object, packs every
    record into a [Uint8Array] (index byte followed by a big-endian payload),
    turns the packed shares into points [(x, y)] and checks them against a
    polynomial interpolated from the first [threshold] points with [BigInt]
    arithmetic modulo a prime.

    Conventions of the embedding:
    - a [BigInt] is a [Z]; [/] and [%] on [BigInt] truncate towards zero, so
      they are [Z.quot] and [Z.rem], and both throw [RangeError] on a zero
      divisor;
    - [BigInt(base)] and the property access are taken as done: a record of
      the JSON object is a pair of the integer base and the digit string;
    - a [Uint8Array] is a [list Z] of values in [0, 256); a store into it
      reduces the stored number modulo 256 ([NaN] is stored as 0);
    - a JavaScript string is a [string] of code units below 256;
    - a function that can throw returns a [result]; exceptions propagate
      through [bind] in the order the source evaluates its calls;
    - a [while] loop is a function defined by well-founded recursion. *)

From Stdlib Require Import ZArith List String Ascii Lia Bool Zwf Znumtheory.
From Stdlib Require DecimalString HexadecimalString DecimalPos HexadecimalPos ListDec.
From Equations Require Import Equations.
Import ListNotations.

Local Open Scope Z_scope.

(** ** Exceptions *)

Inductive exn : Type :=
| Error (msg : string)   (* [throw new Error(msg)] *)
| RangeError             (* BigInt division by zero, out-of-bounds [set] *)
| TypeError.             (* [BigInt(undefined)] *)

Inductive result (A : Type) : Type :=
| Ok (a : A)
| Throw (e : exn).

Arguments Ok {A} a.
Arguments Throw {A} e.

Definition bind {A B : Type} (r : result A) (k : A -> result B) : result B :=
  match r with
  | Ok a => k a
  | Throw e => Throw e
  end.

Notation "x <- r ;; k" := (bind r (fun x => k))
  (at level 61, r at next level, right associativity).

Notation "' pat <- r ;; k" := (bind r (fun pat => k))
  (at level 61, pat pattern, r at next level, right associativity).

(** A [for] loop whose body may throw: the accumulator is threaded from left
    to right and the first exception ends the loop. *)
Fixpoint foldM {A B : Type} (body : B -> A -> result B) (l : list A) (acc : B)
  : result B :=
  match l with
  | [] => Ok acc
  | a :: l' => acc' <- body acc a ;; foldM body l' acc'
  end.

(** [Array.prototype.map] with a callback that may throw. *)
Fixpoint mapM {A B : Type} (f : A -> result B) (l : list A) : result (list B) :=
  match l with
  | [] => Ok []
  | a :: l' => b <- f a ;; bs <- mapM f l' ;; Ok (b :: bs)
  end.

(** ** BigInt primitives *)

(** [a % b] on BigInt: the sign of the result is the sign of [a]. *)
Definition bigint_rem (a b : Z) : result Z :=
  if b =? 0 then Throw RangeError else Ok (Z.rem a b).

(** [n.toString()] and [n.toString(16)] on BigInt. *)
Definition toString (n : Z) : string :=
  DecimalString.NilZero.string_of_int (Z.to_int n).

Definition toString16 (n : Z) : string :=
  HexadecimalString.NilZero.string_of_int (Z.to_hex_int n).

(** ** String helpers *)

(** [s.toLowerCase()]; only the letters A-Z matter to the callers, every other
    code unit is looked up in [digits] and rejected there. *)
Definition lower (c : ascii) : ascii :=
  let n := nat_of_ascii c in
  if ((65 <=? n) && (n <=? 90))%nat then ascii_of_nat (n + 32) else c.

Fixpoint toLowerCase (s : string) : string :=
  match s with
  | EmptyString => EmptyString
  | String c s' => String (lower c) (toLowerCase s')
  end.

(** [s.indexOf(ch)] for a one-character [ch]: position of the first
    occurrence, or -1. *)
Fixpoint indexOf_from (s : string) (ch : ascii) (pos : Z) : Z :=
  match s with
  | EmptyString => -1
  | String c s' => if Ascii.eqb c ch then pos else indexOf_from s' ch (pos + 1)
  end.

Definition indexOf (s : string) (ch : ascii) : Z := indexOf_from s ch 0.

(** [parseInt(s, radix)], following ECMA-262: leading white space and a sign
    are skipped, [0x] selects radix 16 when the radix is 0 (absent) or 16, and
    the longest prefix of digits is read.  [None] is [NaN].  The numeric
    result is exact (the source only parses short keys and two-digit
    hexadecimal groups, far below 2^53). *)
Definition isWhiteSpace (c : ascii) : bool :=
  let n := nat_of_ascii c in
  ((n =? 9) || (n =? 10) || (n =? 11) || (n =? 12) || (n =? 13)
   || (n =? 32) || (n =? 160))%nat.

Fixpoint trimStart (s : string) : string :=
  match s with
  | String c s' => if isWhiteSpace c then trimStart s' else s
  | EmptyString => EmptyString
  end.

Definition digits : string := "0123456789abcdefghijklmnopqrstuvwxyz".

Definition digitValue (c : ascii) : Z := indexOf digits (lower c).

Fixpoint parseDigits (radix : Z) (s : string) (acc : option Z) : option Z :=
  match s with
  | EmptyString => acc
  | String c s' =>
      let d := digitValue c in
      if (0 <=? d) && (d <? radix) then
        parseDigits radix s'
          (Some (match acc with Some a => a * radix + d | None => d end))
      else acc
  end.

Definition stripHexPrefix (s : string) : option string :=
  match s with
  | String "0" (String "x" s') => Some s'
  | String "0" (String "X" s') => Some s'
  | _ => None
  end.

Definition parseInt (s : string) (radix : Z) : option Z :=
  let s := trimStart s in
  let '(sign, s) :=
    match s with
    | String "-" s' => (-1, s')
    | String "+" s' => (1, s')
    | _ => (1, s)
    end in
  if (radix =? 0) || (radix =? 16) then
    match stripHexPrefix s with
    | Some s' => option_map (Z.mul sign) (parseDigits 16 s' None)
    | None =>
        option_map (Z.mul sign)
          (parseDigits (if radix =? 0 then 10 else 16) s None)
    end
  else if (radix <? 2) || (36 <? radix) then None
  else option_map (Z.mul sign) (parseDigits radix s None).

(** Storing a number into a [Uint8Array] element. *)
Definition toUint8 (v : option Z) : Z :=
  match v with
  | None => 0
  | Some n => n mod 256
  end.

(** [Buffer.from(bytes).toString('hex')]. *)
Definition hexDigit (d : Z) : ascii :=
  match get (Z.to_nat d) digits with
  | Some c => c
  | None => "0"%char
  end.

Fixpoint bytesToHex (bytes : list Z) : string :=
  match bytes with
  | [] => EmptyString
  | b :: bs => String (hexDigit (b / 16)) (String (hexDigit (b mod 16)) (bytesToHex bs))
  end.

(** ** Share formatting (lines 4-75) *)

(** [baseStringToHex(str, base)]: [base] is the value of [BigInt(base)]. *)
Definition baseStringToHex (str : string) (base : Z) : result string :=
  let str := toLowerCase str in
  n <- foldM (fun n ch =>
                let val := indexOf digits ch in
                if val =? -1
                then Throw (Error "Invalid character for base conversion")
                else Ok (n * base + val))
             (list_ascii_of_string str) 0 ;;
  let hex := toString16 n in
  Ok (if (String.length hex mod 2 =? 0)%nat then hex else String "0" hex).

(** [hexStringToUint8Array(hex)]. *)
Definition hexStringToUint8Array (hex : string) : list Z :=
  let hex := if (String.length hex mod 2 =? 0)%nat then hex else String "0" hex in
  map (fun i => toUint8 (parseInt (substring (i * 2) 2 hex) 16))
      (seq 0 (String.length hex / 2)).

(** [padDataBytes(data, length)]: right-aligned, zero-filled on the left. *)
Definition padDataBytes (data : list Z) (len : nat) : list Z :=
  if (len <=? List.length data)%nat then data
  else repeat 0 (len - List.length data) ++ data.

(** [target.set(src, offset)] on typed arrays. *)
Definition uint8_set (target src : list Z) (offset : nat) : result (list Z) :=
  if (List.length target <? offset + List.length src)%nat then Throw RangeError
  else Ok (firstn offset target ++ src
           ++ skipn (offset + List.length src) target).

(** One share record of the JSON object: [{ base, value }]. *)
Record entry : Type := { base : Z; value : string }.

(** The parsed JSON object as [for (const key in data)] enumerates it. *)
Definition json : Type := list (string * entry).

Record shareData : Type := { index : option Z; hexVal : string }.

Definition formatSharesFromJSON (data : json) : result (list (list Z)) :=
  ' (sharesData, maxDataLen) <-
    foldM (fun '(sharesData, maxDataLen) '(key, e) =>
             if String.eqb key "keys" then Ok (sharesData, maxDataLen)
             else
               hexVal <- baseStringToHex (value e) (base e) ;;
               Ok (sharesData ++ [ {| index := parseInt key 0; hexVal := hexVal |} ],
                   Nat.max maxDataLen (String.length hexVal / 2)))
          data ([], 0%nat) ;;
  shares <-
    mapM (fun sd =>
            let dataBytes := hexStringToUint8Array (hexVal sd) in
            let dataBytes := padDataBytes dataBytes maxDataLen in
            uint8_set (toUint8 (index sd) :: repeat 0 maxDataLen) dataBytes 1)
         sharesData ;;
  (* Check for duplicates *)
  _ <- foldM (fun seen share =>
                let hex := bytesToHex share in
                if existsb (String.eqb hex) seen
                then Throw (Error ("Duplicate share detected for hex: " ++ hex))
                else Ok (seen ++ [hex]))
             shares [] ;;
  Ok shares.

(** ** Points (lines 77-87) *)

Definition point : Type := (Z * Z)%type.

(** The callback of [sharesToPoints]: [BigInt(s[0])] throws a [TypeError] on
    an empty array. *)
Definition shareToPoint (s : list Z) : result point :=
  match s with
  | [] => Throw TypeError
  | s0 :: rest =>
      let x := s0 in
      let y := fold_left (fun y si => Z.shiftl y 8 + si) rest 0 in
      Ok (x, y)
  end.

Definition sharesToPoints (shares : list (list Z)) : result (list point) :=
  mapM shareToPoint shares.

(** ** Modular inverse (lines 89-107) *)

(** The quantity that decreases at every iteration of the loop below: once
    [aa] is at most 1 the loop is over, a negative [p] leaves one iteration,
    and a positive [p] is replaced by a smaller remainder. *)
Definition loop_measure (aa p : Z) : Z :=
  if aa <=? 1 then 0 else if p <? 0 then 1 else p + 2.

#[local] Instance Zwf_WellFounded : WellFounded (Zwf 0) :=
  Acc_intro_generator 64 (Zwf_well_founded 0).
#[local] Opaque Zwf_WellFounded.

(** The [while (aa > 1n)] loop on the variables [aa], [p], [x0], [x1]; its
    outcome is the final [x1].  [aa / p] throws when [p] is zero. *)
Equations? modInverse_loop (aa p x0 x1 : Z) : result Z
  by wf (loop_measure aa p) (Zwf 0) :=
  modInverse_loop aa p x0 x1 with Z_gt_le_dec aa 1 := {
    | right _ := Ok x1
    | left _ with Z.eq_dec p 0 := {
      | left _ := Throw RangeError
      | right _ :=
          let q := Z.quot aa p in
          modInverse_loop p (Z.rem aa p) (x1 - q * x0) x0 } }.
Proof.
  unfold loop_measure, Zwf.
  destruct (Z.leb_spec aa 1); [lia|].
  destruct (Z.leb_spec p 1); [destruct (Z.ltb_spec p 0); lia|].
  destruct (Z.ltb_spec p 0); [lia|].
  destruct (Z.ltb_spec (Z.rem aa p) 0).
  - pose proof (Z.rem_nonneg aa p). lia.
  - pose proof (Z.rem_bound_pos aa p). lia.
Qed.

Definition modInverse (a p : Z) : result Z :=
  let m0 := p in
  if p =? 1 then Ok 0
  else
    x1 <- modInverse_loop a p 0 1 ;;
    Ok (if x1 <? 0 then x1 + m0 else x1).

(** ** Lagrange interpolation (lines 109-125) *)

(** [points[i]]; the loops only use indices below [points.length]. *)
Definition at_ (points : list point) (i : nat) : point := nth i points (0, 0).

(** Body of the inner [for j] loops (lines 117-120 with [x = 0n], lines
    142-145 with the share's own [x]). *)
Definition liStep (points : list point) (prime x xi : Z) (i : nat)
  (li : Z) (j : nat) : result Z :=
  if (j =? i)%nat then Ok li
  else
    let xj := fst (at_ points j) in
    inv <- modInverse (xi - xj) prime ;;
    bigint_rem (li * (x - xj) * inv) prime.

Definition lagrangeInterpolationAtZero (points : list point) (prime : Z)
  : result Z :=
  let k := List.length points in
  foldM (fun secret i =>
           let '(xi, yi) := at_ points i in
           li <- foldM (liStep points prime 0 xi i) (seq 0 k) 1 ;;
           bigint_rem (prime + secret + yi * li) prime)
        (seq 0 k) 0.

(** ** Detection (lines 127-154) *)

(** [l.slice(0, end)] for an integer [end]. *)
Definition slice0 {A : Type} (l : list A) (end_ : Z) : list A :=
  let len := Z.of_nat (List.length l) in
  let final := if end_ <? 0 then Z.max (len + end_) 0 else Z.min end_ len in
  firstn (Z.to_nat final) l.

(** Lines 137-148: the estimate of the subset's polynomial at [x]. *)
Definition yEstimateAt (subset : list point) (prime x : Z) : result Z :=
  foldM (fun yEstimate i =>
           let '(xi, yi) := at_ subset i in
           li <- foldM (liStep subset prime x xi i)
                       (seq 0 (List.length subset)) 1 ;;
           bigint_rem (yEstimate + yi * li) prime)
        (seq 0 (List.length subset)) 0.

(** The returned object; [secret = None] is [null].  An element of
    [wrongShares] is the pair [[Number(x), y.toString()]]. *)
Record detection : Type :=
  { secret : option Z; wrongShares : list (Z * string) }.

Definition detectWrongShares (shares : list (list Z)) (threshold prime : Z)
  : result detection :=
  if Z.of_nat (List.length shares) <? threshold
  then Ok {| secret := None; wrongShares := [] |}
  else
    points <- sharesToPoints shares ;;
    let subset := slice0 points threshold in
    s <- lagrangeInterpolationAtZero subset prime ;;
    wrong <- foldM (fun wrong '(x, y) =>
                      yEstimate <- yEstimateAt subset prime x ;;
                      Ok (if yEstimate =? y then wrong
                          else wrong ++ [(x, toString y)]))
                   points [] ;;
    Ok {| secret := Some s; wrongShares := wrong |}.

(** ** The driver (lines 156-190) *)

Definition PRIME : Z := 2 ^ 521 - 1.

(** [processFile] between reading the file and printing: the shares are
    formatted and then checked with [threshold = jsonData.keys.k].  The call
    to the external [shamir-secret-sharing] package in between is not part of
    this repository and is left out. *)
Definition processFile (data : json) (threshold : Z) : result detection :=
  shares <- formatSharesFromJSON data ;;
  detectWrongShares shares threshold PRIME.

(** ** Definitions used to state the properties *)

(** What the loop of [modInverse a m] keeps true of its four variables: the
    Bezout relations modulo [m], coprimality of the two remainders, and the
    alternating signs of the two coefficients together with the bound that
    keeps the returned coefficient inside [(-m, m)]. *)
Definition loop_inv (a m aa p x0 x1 : Z) : Prop :=
  1 <= aa /\ 0 <= p /\ Z.gcd aa p = 1 /\
  (m | x1 * a - aa) /\ (m | x0 * a - p) /\
  - m < x1 < m /\
  ((x0 <= 0 <= x1 /\ x1 * p - x0 * aa = m) \/
   (x1 <= 0 <= x0 /\ x0 * aa - x1 * p = m)).

(** The shares of the specification's concrete scenario. *)
Definition scenario : list (list Z) := [[1; 7]; [2; 13]; [3; 19]].

(** The estimates of the subset's polynomial at the [x] of every point, in
    input order. *)
Definition estimates (subset points : list point) (prime : Z) : result (list Z) :=
  mapM (fun pt => yEstimateAt subset prime (fst pt)) points.

(** The pairs (index, actual value) of the points whose estimate differs from
    their [y], in input order. *)
Definition mismatches (points : list point) (ests : list Z) : list (Z * string) :=
  map (fun pe => (fst (fst pe), toString (snd (fst pe))))
      (filter (fun pe => negb (snd pe =? snd (fst pe))) (combine points ests)).


(** The big-endian value of a byte sequence, as the loop of [sharesToPoints]
    accumulates it. *)
Definition bigEndian (bytes : list Z) : Z :=
  fold_left (fun y si => Z.shiftl y 8 + si) bytes 0.

(** The points of shares that all carry an index byte. *)
Definition pointsOf (shares : list (list Z)) : list point :=
  map (fun s => (hd 0 s, bigEndian (tl s))) shares.

(** Two outcomes agree modulo [p]: both are values, congruent modulo [p], or
    both are the same exception. *)
Definition agree_mod (p : Z) (r1 r2 : result Z) : Prop :=
  match r1, r2 with
  | Ok v1, Ok v2 => v1 mod p = v2 mod p
  | Throw e1, Throw e2 => e1 = e2
  | _, _ => False
  end.

(** The indices of [subset] have inverses wherever the loops ask for one. *)
Definition invertible_differences (subset : list point) (prime : Z) : Prop :=
  forall pi pj, In pi subset -> In pj subset ->
                1 < fst pi - fst pj -> 0 <= prime ->
                Z.gcd (fst pi - fst pj) prime = 1.

(** The pairs (index, decimal value) of the points whose [y] differs from
    one fixed estimate [c], in input order. *)
Definition reported (c : Z) (points : list point) : list (Z * string) :=
  map (fun pt => (fst pt, toString (snd pt)))
      (filter (fun pt => negb (c =? snd pt)) points).

(** The number a digit string denotes in a base, as the loop of
    [baseStringToHex] accumulates it. *)
Definition digitsValue (str : string) (base : Z) : Z :=
  fold_left (fun n ch => n * base + indexOf digits ch)
            (list_ascii_of_string (toLowerCase str)) 0.

(** The digits of a hexadecimal numeral, most significant first, and the
    value of such a digit sequence. *)
Fixpoint hexDigitsOf (d : Hexadecimal.uint) : list Z :=
  match d with
  | Hexadecimal.Nil => []
  | Hexadecimal.D0 d => 0 :: hexDigitsOf d
  | Hexadecimal.D1 d => 1 :: hexDigitsOf d
  | Hexadecimal.D2 d => 2 :: hexDigitsOf d
  | Hexadecimal.D3 d => 3 :: hexDigitsOf d
  | Hexadecimal.D4 d => 4 :: hexDigitsOf d
  | Hexadecimal.D5 d => 5 :: hexDigitsOf d
  | Hexadecimal.D6 d => 6 :: hexDigitsOf d
  | Hexadecimal.D7 d => 7 :: hexDigitsOf d
  | Hexadecimal.D8 d => 8 :: hexDigitsOf d
  | Hexadecimal.D9 d => 9 :: hexDigitsOf d
  | Hexadecimal.Da d => 10 :: hexDigitsOf d
  | Hexadecimal.Db d => 11 :: hexDigitsOf d
  | Hexadecimal.Dc d => 12 :: hexDigitsOf d
  | Hexadecimal.Dd d => 13 :: hexDigitsOf d
  | Hexadecimal.De d => 14 :: hexDigitsOf d
  | Hexadecimal.Df d => 15 :: hexDigitsOf d
  end.

Definition fold16 (vals : list Z) (acc : Z) : Z :=
  fold_left (fun a v => a * 16 + v) vals acc.

(** The string of a sequence of hexadecimal digits. *)
Definition hexChars (vals : list Z) : string :=
  string_of_list_ascii (map hexDigit vals).

(** The bytes of an even-length hexadecimal string, read two characters at a
    time. *)
Fixpoint pairs (s : string) : list Z :=
  match s with
  | String c1 (String c2 rest) =>
      toUint8 (parseInt (String c1 (String c2 EmptyString)) 16) :: pairs rest
  | _ => []
  end.

(** [hex] with a leading zero when its length is odd (lines 17 and 23). *)
Definition evenPad (hex : string) : string :=
  if (String.length hex mod 2 =? 0)%nat then hex else String "0" hex.

(** ASCII letters and digits. *)
Definition isAlnum (c : ascii) : bool :=
  let n := nat_of_ascii c in
  (((48 <=? n) && (n <=? 57)) || ((65 <=? n) && (n <=? 90))
   || ((97 <=? n) && (n <=? 122)))%nat.

(** The share records of the JSON object: every member but [keys], in
    enumeration order. *)
Definition records (data : json) : json :=
  filter (fun '(key, _) => negb (String.eqb key "keys")) data.

(** The hexadecimal text of a record's value. *)
Definition hexOf (r : string * entry) : result string :=
  baseStringToHex (value (snd r)) (base (snd r)).

(** The payload length the formatter pads to: half the length of the longest
    hexadecimal text. *)
Definition maxLen (hexes : list string) (m0 : nat) : nat :=
  fold_left Nat.max (map (fun h => (String.length h / 2)%nat) hexes) m0.

(** The share built from a record and its hexadecimal text: the index byte,
    then the payload padded to [m] bytes. *)
Definition shareOf (m : nat) (rh : (string * entry) * string) : list Z :=
  toUint8 (parseInt (fst (fst rh)) 0)
  :: padDataBytes (hexStringToUint8Array (snd rh)) m.

(** A byte. *)
Definition isByte (b : Z) : Prop := 0 <= b < 256.

(** A record whose value is made of ASCII letters and digits only. *)
Definition validRecord (r : string * entry) : bool :=
  forallb isAlnum (list_ascii_of_string (value (snd r))).

(** The hexadecimal text of a valid record: its number in hexadecimal, of
    even length. *)
Definition hexText (r : string * entry) : string :=
  evenPad (toString16 (digitsValue (value (snd r)) (base (snd r)))).

(** The shares the formatter builds from the records of a JSON object. *)
Definition formattedShares (data : json) : list (list Z) :=
  let hexes := map hexText (records data) in
  map (shareOf (maxLen hexes 0)) (combine (records data) hexes).

(** The duplicate check of lines 64-72 on its own: the renderings seen, or
    the duplicate error. *)
Definition duplicateCheck (shares : list (list Z)) : result (list string) :=
  foldM (fun seen share =>
           let hex := bytesToHex share in
           if existsb (String.eqb hex) seen
           then Throw (Error ("Duplicate share detected for hex: " ++ hex))
           else Ok (seen ++ [hex]))
        shares [].

(** The digits of a decimal numeral, most significant first, and the value
    of such a digit sequence. *)
Fixpoint decDigitsOf (d : Decimal.uint) : list Z :=
  match d with
  | Decimal.Nil => []
  | Decimal.D0 d => 0 :: decDigitsOf d
  | Decimal.D1 d => 1 :: decDigitsOf d
  | Decimal.D2 d => 2 :: decDigitsOf d
  | Decimal.D3 d => 3 :: decDigitsOf d
  | Decimal.D4 d => 4 :: decDigitsOf d
  | Decimal.D5 d => 5 :: decDigitsOf d
  | Decimal.D6 d => 6 :: decDigitsOf d
  | Decimal.D7 d => 7 :: decDigitsOf d
  | Decimal.D8 d => 8 :: decDigitsOf d
  | Decimal.D9 d => 9 :: decDigitsOf d
  end.

Definition fold10 (vals : list Z) (acc : Z) : Z :=
  fold_left (fun a v => a * 10 + v) vals acc.

(** * Properties *)

(** ** The loop of [modInverse] *)

(** One unfolding of the [while] loop. *)
Lemma modInverse_loop_step (aa p x0 x1 : Z) :
  modInverse_loop aa p x0 x1 =
  if aa >? 1 then
    if p =? 0 then Throw RangeError
    else modInverse_loop p (Z.rem aa p) (x1 - Z.quot aa p * x0) x0
  else Ok x1.
Proof.
  rewrite modInverse_loop_equation_1.
  destruct (Z_gt_le_dec aa 1) as [Hgt|Hle]; simpl.
  - replace (aa >? 1) with true by (symmetry; apply Z.gtb_lt; lia).
    destruct (Z.eq_dec p 0) as [Hp|Hp]; simpl.
    + subst p. reflexivity.
    + replace (p =? 0) with false by (symmetry; apply Z.eqb_neq; exact Hp).
      reflexivity.
  - replace (aa >? 1) with false; [reflexivity|].
    symmetry. rewrite Z.gtb_ltb. apply Z.ltb_ge. exact Hle.
Qed.

(** The loop body is never entered when the first argument is at most 1. *)
Lemma modInverse_loop_skip (aa p x0 x1 : Z) :
  aa <= 1 -> modInverse_loop aa p x0 x1 = Ok x1.
Proof.
  intros H. rewrite modInverse_loop_step.
  replace (aa >? 1) with false; [reflexivity|].
  symmetry. rewrite Z.gtb_ltb. apply Z.ltb_ge. exact H.
Qed.

Lemma modInverse_small (a m : Z) :
  a <= 1 -> m <> 1 -> modInverse a m = Ok 1.
Proof.
  intros Ha Hm. unfold modInverse.
  replace (m =? 1) with false by (symmetry; apply Z.eqb_neq; exact Hm).
  rewrite modInverse_loop_skip by exact Ha. reflexivity.
Qed.

Lemma modInverse_modulus_one (a : Z) : modInverse a 1 = Ok 0.
Proof. reflexivity. Qed.



(** C9: with fewer shares than the threshold, [detectWrongShares] returns
    [{ secret: null, wrongShares: [] }] and throws nothing; the shares are
    not even looked at. *)
Theorem detectWrongShares_insufficient (shares : list (list Z)) (threshold prime : Z) :
  Z.of_nat (List.length shares) < threshold ->
  detectWrongShares shares threshold prime =
  Ok {| secret := None; wrongShares := [] |}.
Proof.
  intros H. unfold detectWrongShares.
  replace (Z.of_nat (List.length shares) <? threshold) with true; [reflexivity|].
  symmetry. apply Z.ltb_lt. exact H.
Qed.

Lemma detectWrongShares_insufficient_witness :
  detectWrongShares [[1; 7]; []] 3 PRIME =
  Ok {| secret := None; wrongShares := [] |}.
Proof.
  apply (detectWrongShares_insufficient [[1; 7]; []] 3 PRIME).
  simpl. lia.
Defined.

(** ** Correctness of [modInverse] on non-negative coprime arguments *)

Section ExtendedEuclid.

Variables a m : Z.
Hypothesis m_large : 1 < m.

Lemma loop_inv_init : 0 <= a -> Z.gcd a m = 1 -> loop_inv a m a m 0 1.
Proof.
  intros Ha Hg. unfold loop_inv.
  assert (a <> 0) by (intros ->; rewrite Z.gcd_0_l in Hg; lia).
  repeat split; try lia.
  - exists 0. lia.
  - exists (-1). lia.
Qed.

Lemma loop_inv_step (aa p x0 x1 : Z) :
  1 < aa -> loop_inv a m aa p x0 x1 ->
  0 < p /\ loop_inv a m p (Z.rem aa p) (x1 - Z.quot aa p * x0) x0.
Proof.
  intros Haa (H1 & Hp & Hg & Hd1 & Hd0 & Hb & Hs).
  assert (Hp0 : 0 < p).
  { destruct (Z.eq_dec p 0) as [->|]; [|lia].
    rewrite Z.gcd_0_r in Hg. lia. }
  split; [exact Hp0|].
  pose proof (Z.quot_rem' aa p) as Hqr.
  pose proof (Z.rem_bound_pos aa p ltac:(lia) Hp0) as Hr.
  assert (Hq : 0 <= Z.quot aa p) by (apply Z.quot_pos; lia).
  set (q := Z.quot aa p) in *. set (r := Z.rem aa p) in *.
  unfold loop_inv. repeat split; try lia.
  - subst r. rewrite Z.gcd_comm, Z.gcd_rem by lia. rewrite Z.gcd_comm. exact Hg.
  - exact Hd0.
  - replace ((x1 - q * x0) * a - r)
      with ((x1 * a - aa) - q * (x0 * a - p)) by nia.
    apply Z.divide_sub_r; [exact Hd1|].
    apply Z.divide_mul_r. exact Hd0.
  - destruct Hs as [[Hsg He]|[Hsg He]]; nia.
  - destruct Hs as [[Hsg He]|[Hsg He]]; nia.
Qed.

Lemma modInverse_loop_inv (n : nat) :
  forall aa p x0 x1,
    p < Z.of_nat n -> loop_inv a m aa p x0 x1 ->
    exists r, modInverse_loop aa p x0 x1 = Ok r /\
              (m | r * a - 1) /\ - m < r < m.
Proof.
  induction n as [|n IH]; intros aa p x0 x1 Hn Hinv.
  - destruct Hinv as (_ & Hp & _). lia.
  - rewrite modInverse_loop_step.
    destruct (Z.gtb_spec aa 1) as [Hgt|Hle].
    + destruct (loop_inv_step aa p x0 x1 Hgt Hinv) as [Hp Hinv'].
      replace (p =? 0) with false by (symmetry; apply Z.eqb_neq; lia).
      apply IH; [|exact Hinv'].
      pose proof (Z.rem_bound_pos aa p ltac:(lia) Hp). lia.
    + destruct Hinv as (H1 & _ & _ & Hd1 & _ & Hb & _).
      assert (aa = 1) by lia. subst aa.
      exists x1. auto.
Qed.

Lemma modInverse_coprime :
  0 <= a -> Z.gcd a m = 1 ->
  exists b, modInverse a m = Ok b /\ 0 <= b < m /\ Z.rem (a * b) m = 1.
Proof.
  intros Ha Hg.
  destruct (modInverse_loop_inv (S (Z.to_nat m)) a m 0 1) as (r & Hr & Hd & Hb).
  { lia. }
  { apply loop_inv_init; assumption. }
  unfold modInverse.
  replace (m =? 1) with false by (symmetry; apply Z.eqb_neq; lia).
  rewrite Hr. simpl.
  set (b := if r <? 0 then r + m else r).
  assert (Hb' : 0 <= b < m) by (subst b; destruct (Z.ltb_spec r 0); lia).
  assert (Hd' : (m | a * b - 1)).
  { subst b. destruct (Z.ltb_spec r 0).
    - replace (a * (r + m) - 1) with ((r * a - 1) + a * m) by lia.
      apply Z.divide_add_r; [exact Hd|]. apply Z.divide_mul_r, Z.divide_refl.
    - replace (a * r - 1) with (r * a - 1) by lia. exact Hd. }
  exists b. repeat split; try lia.
  rewrite Z.rem_mod_nonneg by nia.
  destruct Hd' as [c Hc].
  replace (a * b) with (1 + c * m) by lia.
  rewrite Z.mod_add by lia. apply Z.mod_small. lia.
Qed.

End ExtendedEuclid.

(** C5 (amended): for a non-negative [a] and a modulus [m >= 1] coprime to
    it, [modInverse a m] returns some [b] in [[0, m)] with
    [(a * b) % m = 1 % m]; the right-hand side is 1 for every [m > 1], and 0
    for [m = 1], where the function returns 0. *)
Theorem modInverse_correct (a m : Z) :
  0 <= a -> 0 < m -> Z.gcd a m = 1 ->
  exists b, modInverse a m = Ok b /\ 0 <= b < m /\
            Z.rem (a * b) m = Z.rem 1 m.
Proof.
  intros Ha Hm Hg.
  destruct (Z.eq_dec m 1) as [->|Hm1].
  - exists 0. rewrite modInverse_modulus_one, Z.mul_0_r.
    repeat split; try lia.
  - destruct (modInverse_coprime a m ltac:(lia) Ha Hg) as (b & Hb & Hr & He).
    exists b. repeat split; try tauto.
    rewrite He. symmetry. apply Z.rem_small. lia.
Qed.

Lemma modInverse_correct_witness :
  exists b, modInverse 10 7 = Ok b /\ 0 <= b < 7 /\
            Z.rem (10 * b) 7 = Z.rem 1 7.
Proof.
  apply (modInverse_correct 10 7); [lia | lia | reflexivity].
Defined.

(** C5 as stated fails at the modulus 1, which the source handles by an
    early [return 0n]: no product is 1 modulo 1. *)
Lemma modInverse_modulus_one_counterexample :
  ~ (forall a m, 0 <= a -> Z.gcd a m = 1 ->
       exists b, modInverse a m = Ok b /\ Z.rem (a * b) m = 1).
Proof.
  intros H. destruct (H 5 1) as (b & Hb & Hr); [lia | reflexivity |].
  rewrite Z.rem_1_r in Hr. discriminate.
Qed.

(** ** Mapping shares to points *)

Lemma mapM_total {A B : Type} (f : A -> result B) (g : A -> B) (l : list A) :
  Forall (fun a => f a = Ok (g a)) l -> mapM f l = Ok (map g l).
Proof.
  induction 1 as [|a l Ha _ IH]; simpl; [reflexivity|].
  rewrite Ha, IH. reflexivity.
Qed.

Lemma mapM_length {A B : Type} (f : A -> result B) (l : list A) (bs : list B) :
  mapM f l = Ok bs -> List.length bs = List.length l.
Proof.
  revert bs; induction l as [|a l IH]; simpl; intros bs H.
  - injection H as <-. reflexivity.
  - destruct (f a); [|discriminate]. simpl in H.
    destruct (mapM f l) as [bs'|]; [|discriminate]. simpl in H.
    injection H as <-. simpl. f_equal. apply IH. reflexivity.
Qed.


(** C10 (amended): [sharesToPoints] has no check on the index byte.  On
    shares that carry an index byte it never throws, and every share is
    mapped to the point whose [x] is that byte, zero included, and whose [y]
    is the big-endian value of the remaining bytes. *)
Theorem sharesToPoints_accepts_every_index (shares : list (list Z)) :
  Forall (fun s => s <> []) shares ->
  sharesToPoints shares =
  Ok (map (fun s => (hd 0 s, fold_left (fun y si => Z.shiftl y 8 + si) (tl s) 0))
          shares).
Proof.
  intros H. unfold sharesToPoints. apply mapM_total.
  eapply Forall_impl; [|exact H].
  intros [|s0 rest] Hs; [congruence | reflexivity].
Qed.

Lemma sharesToPoints_accepts_every_index_witness :
  sharesToPoints [[0; 7]; [1; 2; 3]] = Ok [(0, 7); (1, 515)].
Proof.
  apply (sharesToPoints_accepts_every_index [[0; 7]; [1; 2; 3]]).
  repeat constructor; discriminate.
Defined.

(** C10 as stated fails: a share with index 0 is mapped to a point, and the
    formatter builds such a share from the key [0] without complaint. *)
Lemma index_zero_counterexample :
  ~ (forall s, hd_error s = Some 0 -> exists e, sharesToPoints [s] = Throw e).
Proof.
  intros H. destruct (H [0; 7] eq_refl) as [e He].
  vm_compute in He. discriminate.
Qed.

Example formatSharesFromJSON_key_zero :
  formatSharesFromJSON [("0"%string, {| base := 10; value := "7" |})]
  = Ok [[0; 7]].
Proof. vm_compute. reflexivity. Qed.

(** ** The concrete scenario of the specification *)



(** C1 at its failing input: the scenario's shares are untampered (distinct
    [x], all on the line [6x + 1], three shares for threshold 2), and two
    of them are reported as wrong. *)
Theorem untampered_shares_reported :
  sharesToPoints scenario = Ok [(1, 7); (2, 13); (3, 19)] /\
  NoDup (map fst [(1, 7); (2, 13); (3, 19)]) /\
  Forall (fun pt : point => snd pt = Z.rem (6 * fst pt + 1) PRIME)
         [(1, 7); (2, 13); (3, 19)] /\
  option_map wrongShares
    (match detectWrongShares scenario 2 PRIME with
     | Ok r => Some r
     | Throw _ => None
     end) = Some [(1, "7"%string); (3, "19"%string)].
Proof.
  split; [reflexivity|].
  split.
  { repeat constructor; simpl; intuition discriminate. }
  split; [repeat constructor|].
  vm_compute. reflexivity.
Qed.

(** C7 at its failing input: the 2-subsets {1,2} and {2,3} of the scenario's
    points give values at zero that differ even modulo the prime, and
    neither is the line's value 1. *)
Theorem subsets_disagree :
  lagrangeInterpolationAtZero [(1, 7); (2, 13)] PRIME = Ok (PRIME - 27) /\
  lagrangeInterpolationAtZero [(2, 13); (3, 19)] PRIME = Ok (PRIME - 77) /\
  (PRIME - 27) mod PRIME <> (PRIME - 77) mod PRIME.
Proof.
  split; [vm_compute; reflexivity|].
  split; [vm_compute; reflexivity|].
  vm_compute. discriminate.
Qed.

(** C3 at its failing input: for the points (1,6), (3,4) the inner loop
    hands [modInverse] the negative difference 1 - 3, the basis factor it
    leaves is the negative number -3, and the value returned by
    [lagrangeInterpolationAtZero] is -20, outside [[0, PRIME)]. *)
Theorem negative_intermediates :
  foldM (liStep [(1, 6); (3, 4)] PRIME 0 1 0) (seq 0 2) 1 = Ok (-3) /\
  liStep [(1, 6); (3, 4)] PRIME 0 1 0 1 1 =
    (inv <- modInverse (1 - 3) PRIME ;; bigint_rem (1 * (0 - 3) * inv) PRIME) /\
  lagrangeInterpolationAtZero [(1, 6); (3, 4)] PRIME = Ok (-20) /\
  yEstimateAt [(1, 7); (2, 13)] PRIME 1 = Ok (-7).
Proof. vm_compute. repeat split. Qed.

(** C6 at its failing input: the keys [1] and [01] give two shares with
    index 1 and different payloads; formatting accepts them and detection
    completes with a value, because [modInverse 0 m] is 1. *)
Theorem duplicate_index_accepted :
  formatSharesFromJSON
    [("1"%string, {| base := 10; value := "7" |});
     ("01"%string, {| base := 10; value := "13" |})]
  = Ok [[1; 7]; [1; 13]] /\
  modInverse (1 - 1) PRIME = Ok 1 /\
  processFile
    [("1"%string, {| base := 10; value := "7" |});
     ("01"%string, {| base := 10; value := "13" |})] 2
  = Ok {| secret := Some (PRIME - 20);
          wrongShares := [(1, "7"%string); (1, "13"%string)] |}.
Proof. vm_compute. repeat split. Qed.

(** ** Detection as the specification words it *)

Lemma slice0_firstn {A : Type} (l : list A) (n : Z) :
  0 <= n <= Z.of_nat (List.length l) -> slice0 l n = firstn (Z.to_nat n) l.
Proof.
  intros H. unfold slice0.
  replace (n <? 0) with false by (symmetry; apply Z.ltb_ge; lia).
  rewrite Z.min_l by lia. reflexivity.
Qed.

(** The checking loop with its [push] is a filter over the points. *)
Lemma check_loop (subset : list point) (prime : Z) (points : list point) :
  forall acc,
    foldM (fun wrong '(x, y) =>
             yEstimate <- yEstimateAt subset prime x ;;
             Ok (if yEstimate =? y then wrong
                 else wrong ++ [(x, toString y)]))
          points acc
    = ests <- estimates subset points prime ;;
      Ok (acc ++ mismatches points ests).
Proof.
  unfold estimates.
  induction points as [|[x y] points IH]; intros acc; simpl.
  - unfold mismatches. simpl. rewrite app_nil_r. reflexivity.
  - destruct (yEstimateAt subset prime x) as [e|err]; simpl; [|reflexivity].
    rewrite IH.
    destruct (mapM (fun pt => yEstimateAt subset prime (fst pt)) points)
      as [es|err]; simpl; [|reflexivity].
    unfold mismatches. simpl.
    destruct (e =? y); simpl; [reflexivity|].
    rewrite <- app_assoc. reflexivity.
Qed.



(** * Further properties of the source *)

(** ** When [modInverse] throws *)

Lemma modInverse_loop_not_coprime (n : nat) :
  forall aa p x0 x1,
    p < Z.of_nat n -> 1 < aa -> 0 <= p -> Z.gcd aa p <> 1 ->
    modInverse_loop aa p x0 x1 = Throw RangeError.
Proof.
  induction n as [|n IH]; intros aa p x0 x1 Hn Haa Hp Hg; [lia|].
  rewrite modInverse_loop_step.
  replace (aa >? 1) with true by (symmetry; apply Z.gtb_lt; lia).
  destruct (Z.eqb_spec p 0) as [Hp0|Hp0]; [reflexivity|].
  pose proof (Z.rem_bound_pos aa p ltac:(lia) ltac:(lia)) as Hr.
  apply IH; try lia.
  - destruct (Z.eq_dec p 1) as [->|]; [|lia].
    rewrite Z.gcd_1_r in Hg. congruence.
  - rewrite Z.gcd_comm, Z.gcd_rem by lia. rewrite Z.gcd_comm. exact Hg.
Qed.

Lemma modInverse_negative_modulus (a m : Z) :
  1 < a -> m < 0 -> modInverse a m = Ok 0.
Proof.
  intros Ha Hm. unfold modInverse.
  replace (m =? 1) with false by (symmetry; apply Z.eqb_neq; lia).
  rewrite modInverse_loop_step.
  replace (a >? 1) with true by (symmetry; apply Z.gtb_lt; lia).
  replace (m =? 0) with false by (symmetry; apply Z.eqb_neq; lia).
  rewrite modInverse_loop_skip by lia. reflexivity.
Qed.

(** The cases of [modInverse]: either it divides by zero, or it returns. *)
Lemma modInverse_cases (a m : Z) :
  (1 < a /\ 0 <= m /\ Z.gcd a m <> 1 /\ modInverse a m = Throw RangeError)
  \/ (~ (1 < a /\ 0 <= m /\ Z.gcd a m <> 1) /\ exists b, modInverse a m = Ok b).
Proof.
  destruct (Z.eq_dec m 1) as [->|Hm1].
  { right. split; [rewrite Z.gcd_1_r; tauto | exists 0; reflexivity]. }
  destruct (Z_le_gt_dec a 1) as [Ha|Ha].
  { right. split; [lia | exists 1; apply modInverse_small; assumption]. }
  destruct (Z_lt_le_dec m 0) as [Hm|Hm].
  { right. split; [lia | exists 0; apply modInverse_negative_modulus; lia]. }
  destruct (Z.eq_dec (Z.gcd a m) 1) as [Hg|Hg].
  - right. split; [tauto|].
    assert (m <> 0) by (intros ->; rewrite Z.gcd_0_r in Hg; lia).
    destruct (modInverse_coprime a m ltac:(lia) ltac:(lia) Hg) as (b & Hb & _).
    exists b. exact Hb.
  - left. repeat split; try lia; try assumption.
    unfold modInverse.
    replace (m =? 1) with false by (symmetry; apply Z.eqb_neq; lia).
    rewrite (modInverse_loop_not_coprime (S (Z.to_nat m))) by (lia || assumption).
    reflexivity.
Qed.

(** X1: [modInverse a m] throws exactly when [a > 1], [m >= 0] and
    [gcd a m <> 1] (which includes [m = 0]), and what it throws is the
    [RangeError] of the BigInt division by zero; in every other case it
    returns a value. *)
Theorem modInverse_throws_iff (a m : Z) :
  (modInverse a m = Throw RangeError <->
   1 < a /\ 0 <= m /\ Z.gcd a m <> 1) /\
  (forall e, modInverse a m = Throw e -> e = RangeError).
Proof.
  pose proof (modInverse_cases a m) as Hcases.
  split; [split|].
  - intros H. destruct Hcases as [(?&?&?&_)|(_&b&Hb)]; [tauto|congruence].
  - intros H. destruct Hcases as [(_&_&_&Ht)|(Hn&_)]; [exact Ht|tauto].
  - intros e H. destruct Hcases as [(_&_&_&Ht)|(_&b&Hb)]; congruence.
Qed.

(** ** When detection throws *)

Lemma foldM_ok {A B : Type} (body : B -> A -> result B) (l : list A) :
  (forall b a, In a l -> exists b', body b a = Ok b') ->
  forall acc, exists r, foldM body l acc = Ok r.
Proof.
  induction l as [|a l IH]; intros Hbody acc; simpl; [eauto|].
  destruct (Hbody acc a (or_introl eq_refl)) as [b' Hb']. rewrite Hb'. simpl.
  apply IH. intros b a' Ha'. apply Hbody. right. exact Ha'.
Qed.

Lemma modInverse_ok (a m : Z) :
  (1 < a -> 0 <= m -> Z.gcd a m = 1) -> exists b, modInverse a m = Ok b.
Proof.
  intros H. destruct (modInverse_cases a m) as [(Ha & Hm & Hg & _)|(_ & Hb)].
  - elim Hg. auto.
  - exact Hb.
Qed.

Lemma at_In (points : list point) (i : nat) :
  In i (seq 0 (List.length points)) -> In (at_ points i) points.
Proof.
  intros H. apply in_seq in H. apply nth_In. lia.
Qed.

Lemma li_loop_ok (subset : list point) (prime x : Z) (i : nat) :
  prime <> 0 -> invertible_differences subset prime ->
  In i (seq 0 (List.length subset)) ->
  exists li, foldM (liStep subset prime x (fst (at_ subset i)) i)
                   (seq 0 (List.length subset)) 1 = Ok li.
Proof.
  intros Hp Hinv Hi. apply foldM_ok. intros li j Hj. unfold liStep.
  destruct (j =? i)%nat; [eauto|].
  destruct (modInverse_ok (fst (at_ subset i) - fst (at_ subset j)) prime)
    as [inv Hinv'].
  { intros Hd Hm. apply Hinv; auto using at_In. }
  rewrite Hinv'. simpl. unfold bigint_rem.
  replace (prime =? 0) with false by (symmetry; apply Z.eqb_neq; exact Hp).
  eauto.
Qed.

Lemma lagrangeInterpolationAtZero_ok (subset : list point) (prime : Z) :
  prime <> 0 -> invertible_differences subset prime ->
  exists s, lagrangeInterpolationAtZero subset prime = Ok s.
Proof.
  intros Hp Hinv. unfold lagrangeInterpolationAtZero.
  apply foldM_ok. intros s i Hi.
  destruct (li_loop_ok subset prime 0 i Hp Hinv Hi) as [li Hli].
  destruct (at_ subset i) as [xi yi]. simpl in Hli. rewrite Hli. simpl.
  unfold bigint_rem.
  replace (prime =? 0) with false by (symmetry; apply Z.eqb_neq; exact Hp).
  eauto.
Qed.

Lemma yEstimateAt_ok (subset : list point) (prime x : Z) :
  prime <> 0 -> invertible_differences subset prime ->
  exists e, yEstimateAt subset prime x = Ok e.
Proof.
  intros Hp Hinv. unfold yEstimateAt.
  apply foldM_ok. intros s i Hi.
  destruct (li_loop_ok subset prime x i Hp Hinv Hi) as [li Hli].
  destruct (at_ subset i) as [xi yi]. simpl in Hli. rewrite Hli. simpl.
  unfold bigint_rem.
  replace (prime =? 0) with false by (symmetry; apply Z.eqb_neq; exact Hp).
  eauto.
Qed.

Lemma slice0_In {A : Type} (l : list A) (n : Z) (a : A) :
  In a (slice0 l n) -> In a l.
Proof.
  unfold slice0. intros H.
  rewrite <- (firstn_skipn (Z.to_nat
    (if n <? 0 then Z.max (Z.of_nat (List.length l) + n) 0
     else Z.min n (Z.of_nat (List.length l)))) l).
  apply in_or_app. left. exact H.
Qed.

Lemma sharesToPoints_nonempty (shares : list (list Z)) :
  Forall (fun s => s <> []) shares ->
  sharesToPoints shares = Ok (pointsOf shares).
Proof.
  intros H. unfold sharesToPoints, pointsOf. apply mapM_total.
  eapply Forall_impl; [|exact H].
  intros [|s0 rest] Hs; [congruence | reflexivity].
Qed.

Lemma detectWrongShares_ok (shares : list (list Z)) (threshold prime : Z) :
  Forall (fun s => s <> []) shares ->
  prime <> 0 ->
  (forall xi xj, In xi (map (hd 0) shares) -> In xj (map (hd 0) shares) ->
                 1 < xi - xj -> 0 <= prime -> Z.gcd (xi - xj) prime = 1) ->
  exists r, detectWrongShares shares threshold prime = Ok r.
Proof.
  intros Hne Hp Hg. unfold detectWrongShares.
  destruct (Z.of_nat (List.length shares) <? threshold); [eauto|].
  rewrite (sharesToPoints_nonempty shares Hne). cbn [bind].
  set (points := pointsOf shares).
  assert (Hinv : invertible_differences (slice0 points threshold) prime).
  { intros pi pj Hi Hj Hd Hm. apply slice0_In in Hi, Hj.
    apply Hg; try assumption.
    - apply (in_map fst) in Hi. unfold points, pointsOf in Hi.
      rewrite map_map in Hi. exact Hi.
    - apply (in_map fst) in Hj. unfold points, pointsOf in Hj.
      rewrite map_map in Hj. exact Hj. }
  destruct (lagrangeInterpolationAtZero_ok _ prime Hp Hinv) as [s Hs].
  rewrite Hs. cbn [bind].
  destruct (foldM_ok
    (fun wrong '(x, y) =>
       yEstimate <- yEstimateAt (slice0 points threshold) prime x ;;
       Ok (if yEstimate =? y then wrong else wrong ++ [(x, toString y)]))
    points) with (acc := @nil (Z * string)) as [w Hw].
  { intros wrong [x y] _.
    destruct (yEstimateAt_ok (slice0 points threshold) prime x Hp Hinv) as [e He].
    rewrite He. cbn [bind]. eauto. }
  rewrite Hw. cbn [bind]. eauto.
Qed.

(** X2: for a prime modulus and shares that each carry an index byte below
    it, [detectWrongShares] never throws, whatever the threshold, also when
    two shares have the same index. *)
Theorem detectWrongShares_prime_never_throws
  (shares : list (list Z)) (threshold p : Z) :
  Z.prime p ->
  Forall (fun s => s <> [] /\ 0 <= hd 0 s < p) shares ->
  exists r, detectWrongShares shares threshold p = Ok r.
Proof.
  intros Hprime Hshares.
  pose proof (Z.prime_ge_2 p Hprime) as Hp2.
  apply detectWrongShares_ok.
  - eapply Forall_impl; [|exact Hshares]. intros s [Hs _]. exact Hs.
  - lia.
  - intros xi xj Hi Hj Hd _.
    apply in_map_iff in Hi, Hj.
    destruct Hi as (si & <- & Hsi), Hj as (sj & <- & Hsj).
    rewrite Forall_forall in Hshares.
    destruct (Hshares si Hsi) as [_ Hri], (Hshares sj Hsj) as [_ Hrj].
    rewrite Z.gcd_comm. apply Z.coprime_prime_small; [exact Hprime | lia].
Qed.

Lemma detectWrongShares_prime_never_throws_witness :
  exists r, detectWrongShares [[1; 7]; [1; 13]; [2; 2]] 2 3 = Ok r.
Proof.
  apply (detectWrongShares_prime_never_throws [[1; 7]; [1; 13]; [2; 2]] 2 3).
  - exact Z.prime_3.
  - repeat constructor; (discriminate || simpl; lia).
Defined.

(** ** The secret and the estimate at zero *)

Lemma rem_mod_same (a p : Z) : p <> 0 -> (Z.rem a p) mod p = a mod p.
Proof.
  intros Hp. pose proof (Z.quot_rem' a p) as H.
  replace (Z.rem a p) with (a + (- (a ÷ p)) * p) by lia.
  apply Z_mod_plus_full.
Qed.

Lemma bigint_rem_nonzero (a p : Z) : p <> 0 -> bigint_rem a p = Ok (Z.rem a p).
Proof.
  intros Hp. unfold bigint_rem.
  replace (p =? 0) with false by (symmetry; apply Z.eqb_neq; exact Hp).
  reflexivity.
Qed.

Lemma secret_estimate_folds (points : list point) (prime : Z) (l : list nat) :
  forall s e,
    s mod prime = e mod prime ->
    agree_mod prime
      (foldM (fun secret i =>
                let '(xi, yi) := at_ points i in
                li <- foldM (liStep points prime 0 xi i)
                            (seq 0 (List.length points)) 1 ;;
                bigint_rem (prime + secret + yi * li) prime) l s)
      (foldM (fun yEstimate i =>
                let '(xi, yi) := at_ points i in
                li <- foldM (liStep points prime 0 xi i)
                            (seq 0 (List.length points)) 1 ;;
                bigint_rem (yEstimate + yi * li) prime) l e).
Proof.
  induction l as [|i l IH]; intros s e Hse; simpl; [exact Hse|].
  destruct (at_ points i) as [xi yi].
  destruct (foldM (liStep points prime 0 xi i) (seq 0 (List.length points)) 1)
    as [li|err]; simpl; [|reflexivity].
  destruct (Z.eq_dec prime 0) as [Hp|Hp].
  { subst prime. reflexivity. }
  rewrite !(bigint_rem_nonzero _ _ Hp). simpl.
  apply IH. rewrite !rem_mod_same by exact Hp.
  replace (prime + s + yi * li) with (s + yi * li + 1 * prime) by lia.
  rewrite Z_mod_plus_full.
  rewrite (Zplus_mod s), (Zplus_mod e), Hse. reflexivity.
Qed.

(** X3: the secret returned by [lagrangeInterpolationAtZero] and the
    estimate that the checking loop of [detectWrongShares] computes at
    [x = 0] for the same points are congruent modulo the prime, and the two
    computations throw together (the same exception). *)
Theorem secret_is_estimate_at_zero (points : list point) (prime : Z) :
  agree_mod prime (lagrangeInterpolationAtZero points prime)
                  (yEstimateAt points prime 0).
Proof.
  unfold lagrangeInterpolationAtZero, yEstimateAt.
  apply secret_estimate_folds. reflexivity.
Qed.

(** ** Degenerate thresholds *)

(** When every estimate is the same value [c], the checking loop reports
    the points whose [y] is not [c]. *)
Lemma check_loop_constant (subset : list point) (prime c : Z) (points : list point) :
  (forall x, yEstimateAt subset prime x = Ok c) ->
  forall acc,
    foldM (fun wrong '(x, y) =>
             yEstimate <- yEstimateAt subset prime x ;;
             Ok (if yEstimate =? y then wrong
                 else wrong ++ [(x, toString y)]))
          points acc
    = Ok (acc ++ reported c points).
Proof.
  intros Hc. unfold reported.
  induction points as [|[x y] points IH]; intros acc; simpl.
  - rewrite app_nil_r. reflexivity.
  - rewrite Hc. simpl. rewrite IH.
    destruct (c =? y); simpl; [reflexivity|].
    rewrite <- app_assoc. reflexivity.
Qed.

(** X4: with threshold 1 (and a non-zero modulus) the secret is the first
    share's value plus the modulus, reduced, and a share is reported exactly
    when its value differs from the first share's value reduced by [%]; the
    indices play no part. *)
Theorem detectWrongShares_threshold_one
  (s0 : list Z) (rest : list (list Z)) (prime : Z) :
  prime <> 0 ->
  Forall (fun s => s <> []) (s0 :: rest) ->
  detectWrongShares (s0 :: rest) 1 prime =
  Ok {| secret := Some (Z.rem (prime + bigEndian (tl s0)) prime);
        wrongShares :=
          reported (Z.rem (bigEndian (tl s0)) prime) (pointsOf (s0 :: rest)) |}.
Proof.
  intros Hp Hne. unfold detectWrongShares.
  replace (Z.of_nat (List.length (s0 :: rest)) <? 1) with false
    by (symmetry; apply Z.ltb_ge; simpl List.length; lia).
  rewrite (sharesToPoints_nonempty _ Hne). cbn [bind].
  rewrite slice0_firstn
    by (unfold pointsOf; rewrite length_map; simpl List.length; lia).
  change (Z.to_nat 1) with 1%nat. unfold pointsOf at 1. cbn [map firstn].
  set (p0 := (hd 0 s0, bigEndian (tl s0)) : point).
  assert (Hs : lagrangeInterpolationAtZero [p0] prime
               = Ok (Z.rem (prime + bigEndian (tl s0)) prime)).
  { unfold lagrangeInterpolationAtZero, liStep, bigint_rem. simpl.
    replace (prime =? 0) with false by (symmetry; apply Z.eqb_neq; exact Hp).
    cbn [bind]. do 2 f_equal. lia. }
  assert (He : forall x, yEstimateAt [p0] prime x
                         = Ok (Z.rem (bigEndian (tl s0)) prime)).
  { intros x. unfold yEstimateAt, liStep, bigint_rem. simpl.
    replace (prime =? 0) with false by (symmetry; apply Z.eqb_neq; exact Hp).
    cbn [bind]. do 2 f_equal. lia. }
  rewrite Hs. cbn [bind].
  rewrite (check_loop_constant [p0] prime _ _ He). reflexivity.
Qed.

Lemma detectWrongShares_threshold_one_witness :
  detectWrongShares [[5; 7]; [9; 7]; [2; 8]] 1 PRIME =
  Ok {| secret := Some (Z.rem (PRIME + 7) PRIME);
        wrongShares := reported (Z.rem 7 PRIME) [(5, 7); (9, 7); (2, 8)] |}.
Proof.
  apply (detectWrongShares_threshold_one [5; 7] [[9; 7]; [2; 8]] PRIME).
  - vm_compute. discriminate.
  - repeat constructor; discriminate.
Defined.

(** X5: a negative threshold is not rejected: the length test lets it
    through and [slice] counts it from the end, so detection runs as with
    the threshold [max (n + threshold) 0] for [n] shares. *)
Theorem detectWrongShares_negative_threshold
  (shares : list (list Z)) (threshold prime : Z) :
  threshold < 0 ->
  detectWrongShares shares threshold prime =
  detectWrongShares shares
    (Z.max (Z.of_nat (List.length shares) + threshold) 0) prime.
Proof.
  intros Ht. unfold detectWrongShares.
  replace (Z.of_nat (List.length shares) <? threshold) with false
    by (symmetry; apply Z.ltb_ge; lia).
  replace (Z.of_nat (List.length shares)
           <? Z.max (Z.of_nat (List.length shares) + threshold) 0) with false
    by (symmetry; apply Z.ltb_ge; lia).
  destruct (sharesToPoints shares) as [points|err] eqn:Hpts; [|reflexivity].
  apply mapM_length in Hpts. cbn [bind].
  replace (slice0 points (Z.max (Z.of_nat (List.length shares) + threshold) 0))
    with (slice0 points threshold); [reflexivity|].
  unfold slice0. rewrite Hpts.
  replace (threshold <? 0) with true by (symmetry; apply Z.ltb_lt; lia).
  replace (Z.max (Z.of_nat (List.length shares) + threshold) 0 <? 0) with false
    by (symmetry; apply Z.ltb_ge; lia).
  f_equal. lia.
Qed.

Lemma detectWrongShares_negative_threshold_witness :
  detectWrongShares scenario (-1) PRIME = detectWrongShares scenario 2 PRIME.
Proof.
  apply (detectWrongShares_negative_threshold scenario (-1) PRIME). lia.
Defined.

(** X6: with threshold 0 the subset is empty, no arithmetic modulo the
    prime is carried out (so nothing is thrown even for the modulus 0), the
    secret is 0 and every share with a non-zero value is reported. *)
Theorem detectWrongShares_threshold_zero (shares : list (list Z)) (prime : Z) :
  Forall (fun s => s <> []) shares ->
  detectWrongShares shares 0 prime =
  Ok {| secret := Some 0;
        wrongShares := reported 0 (pointsOf shares) |}.
Proof.
  intros Hne. unfold detectWrongShares.
  replace (Z.of_nat (List.length shares) <? 0) with false
    by (symmetry; apply Z.ltb_ge; lia).
  rewrite (sharesToPoints_nonempty _ Hne). cbn [bind].
  rewrite slice0_firstn by lia. cbn [Z.to_nat firstn].
  change (lagrangeInterpolationAtZero [] prime) with (@Ok Z 0). cbn [bind].
  rewrite (check_loop_constant [] prime 0); [reflexivity|].
  intros x. reflexivity.
Qed.

Lemma detectWrongShares_threshold_zero_witness :
  detectWrongShares [[1; 0]; [2; 5]] 0 0 =
  Ok {| secret := Some 0; wrongShares := reported 0 [(1, 0); (2, 5)] |}.
Proof.
  apply (detectWrongShares_threshold_zero [[1; 0]; [2; 5]] 0).
  repeat constructor; discriminate.
Defined.

(** ** Hexadecimal strings and bytes *)

Ltac div2 n :=
  pose proof (Nat.div_mod_eq n 2);
  pose proof (Nat.mod_upper_bound n 2 ltac:(discriminate)).

Lemma string_of_uint_hexChars (d : Hexadecimal.uint) :
  HexadecimalString.NilEmpty.string_of_uint d = hexChars (hexDigitsOf d).
Proof.
  unfold hexChars. induction d; simpl; try rewrite IHd; reflexivity.
Qed.

Lemma hexDigitsOf_range (d : Hexadecimal.uint) :
  Forall (fun v => 0 <= v < 16) (hexDigitsOf d).
Proof.
  induction d; simpl; constructor; (lia || assumption).
Qed.

Lemma of_hex_uint_acc_fold16 (d : Hexadecimal.uint) :
  forall acc, Z.pos (Pos.of_hex_uint_acc d acc) = fold16 (hexDigitsOf d) (Z.pos acc).
Proof.
  unfold fold16.
  induction d; intros acc; simpl; try reflexivity;
    rewrite IHd; f_equal; lia.
Qed.

Lemma of_hex_uint_fold16 (d : Hexadecimal.uint) :
  Z.of_N (Pos.of_hex_uint d) = fold16 (hexDigitsOf d) 0.
Proof.
  induction d; simpl; try reflexivity; try exact IHd;
    rewrite of_hex_uint_acc_fold16; reflexivity.
Qed.

Lemma hexChars_length (vals : list Z) :
  String.length (hexChars vals) = List.length vals.
Proof.
  unfold hexChars. induction vals as [|v vals IH]; simpl; congruence.
Qed.

Lemma pair_value (v1 v2 : Z) :
  0 <= v1 < 16 -> 0 <= v2 < 16 ->
  toUint8 (parseInt (String (hexDigit v1) (String (hexDigit v2) EmptyString)) 16)
  = v1 * 16 + v2.
Proof.
  intros H1 H2.
  assert (E1 : v1 = 0 \/ v1 = 1 \/ v1 = 2 \/ v1 = 3 \/ v1 = 4 \/ v1 = 5 \/ v1 = 6
               \/ v1 = 7 \/ v1 = 8 \/ v1 = 9 \/ v1 = 10 \/ v1 = 11 \/ v1 = 12
               \/ v1 = 13 \/ v1 = 14 \/ v1 = 15) by lia.
  assert (E2 : v2 = 0 \/ v2 = 1 \/ v2 = 2 \/ v2 = 3 \/ v2 = 4 \/ v2 = 5 \/ v2 = 6
               \/ v2 = 7 \/ v2 = 8 \/ v2 = 9 \/ v2 = 10 \/ v2 = 11 \/ v2 = 12
               \/ v2 = 13 \/ v2 = 14 \/ v2 = 15) by lia.
  clear H1 H2.
  repeat (destruct E1 as [E1|E1]); subst v1;
    repeat (destruct E2 as [E2|E2]); subst v2; reflexivity.
Qed.

Lemma pairs_hexChars (n : nat) :
  forall vals acc,
    List.length vals = (2 * n)%nat ->
    Forall (fun v => 0 <= v < 16) vals ->
    fold_left (fun y si => Z.shiftl y 8 + si) (pairs (hexChars vals)) acc
    = fold16 vals acc.
Proof.
  induction n as [|n IH]; intros vals acc Hlen Hr.
  - destruct vals; [reflexivity | discriminate].
  - destruct vals as [|v1 [|v2 vals]]; try (simpl in Hlen; lia).
    inversion Hr as [|? ? Hv1 Hr1]; subst.
    inversion Hr1 as [|? ? Hv2 Hr2]; subst.
    change (hexChars (v1 :: v2 :: vals))
      with (String (hexDigit v1) (String (hexDigit v2) (hexChars vals))).
    cbn [pairs fold_left]. rewrite pair_value by assumption.
    rewrite IH; [|simpl in Hlen; lia|assumption].
    unfold fold16. cbn [fold_left]. f_equal.
    rewrite Z.shiftl_mul_pow2 by lia. lia.
Qed.

Lemma substring_zero (s : string) : substring 0 0 s = EmptyString.
Proof. destruct s; reflexivity. Qed.

(** Reading the bytes by index, as the source does, is reading them pair by
    pair. *)
Lemma index_pairs (n : nat) :
  forall s,
    String.length s = (2 * n)%nat ->
    map (fun i => toUint8 (parseInt (substring (i * 2) 2 s) 16)) (seq 0 n)
    = pairs s.
Proof.
  induction n as [|n IH]; intros s Hlen.
  - destruct s; [reflexivity | discriminate].
  - destruct s as [|c1 [|c2 rest]]; try (simpl in Hlen; lia).
    cbn [seq map pairs]. f_equal.
    + simpl. rewrite substring_zero. reflexivity.
    + rewrite <- seq_shift, map_map. rewrite <- (IH rest) by (simpl in Hlen; lia).
      apply map_ext. intros i. reflexivity.
Qed.

Lemma evenPad_length (hex : string) :
  (String.length (evenPad hex) mod 2 = 0)%nat.
Proof.
  unfold evenPad.
  destruct (Nat.eqb_spec (String.length hex mod 2) 0) as [E|E]; [exact E|].
  simpl String.length. div2 (String.length hex). div2 (S (String.length hex)). lia.
Qed.

Lemma evenPad_idem (hex : string) : evenPad (evenPad hex) = evenPad hex.
Proof.
  unfold evenPad at 1. rewrite evenPad_length. reflexivity.
Qed.

Lemma hexStringToUint8Array_pairs (hex : string) :
  hexStringToUint8Array hex = pairs (evenPad hex).
Proof.
  unfold hexStringToUint8Array. fold (evenPad hex).
  apply index_pairs.
  pose proof (evenPad_length hex). div2 (String.length (evenPad hex)). lia.
Qed.

Lemma evenPad_hexChars (vals : list Z) :
  evenPad (hexChars vals) =
  hexChars (if (List.length vals mod 2 =? 0)%nat then vals else 0 :: vals).
Proof.
  unfold evenPad. rewrite hexChars_length.
  destruct (List.length vals mod 2 =? 0)%nat; reflexivity.
Qed.

Lemma bigEndian_hexChars (vals : list Z) :
  Forall (fun v => 0 <= v < 16) vals ->
  bigEndian (hexStringToUint8Array (hexChars vals)) = fold16 vals 0.
Proof.
  intros Hr. rewrite hexStringToUint8Array_pairs, evenPad_hexChars.
  unfold bigEndian.
  destruct (Nat.eqb_spec (List.length vals mod 2) 0) as [E|E].
  - apply (pairs_hexChars (List.length vals / 2)); [|exact Hr].
    div2 (List.length vals). lia.
  - rewrite (pairs_hexChars (S (List.length vals) / 2)).
    + reflexivity.
    + simpl List.length. div2 (List.length vals). div2 (S (List.length vals)). lia.
    + constructor; [lia | exact Hr].
Qed.

Lemma hex_bytes_round_trip_aux (n : Z) :
  0 <= n ->
  bigEndian (hexStringToUint8Array (toString16 n)) = n /\
  hexStringToUint8Array (evenPad (toString16 n))
  = hexStringToUint8Array (toString16 n).
Proof.
  intros Hn. split.
  - destruct n as [|p|p]; [reflexivity| |lia].
    unfold toString16. cbn [Z.to_hex_int HexadecimalString.NilZero.string_of_int].
    unfold HexadecimalString.NilZero.string_of_uint.
    assert (H : bigEndian (hexStringToUint8Array
                  (HexadecimalString.NilEmpty.string_of_uint (Pos.to_hex_uint p)))
                = Z.pos p).
    { rewrite string_of_uint_hexChars, bigEndian_hexChars
        by apply hexDigitsOf_range.
      rewrite <- of_hex_uint_fold16, HexadecimalPos.Unsigned.of_to. reflexivity. }
    destruct (Pos.to_hex_uint p); exact H.
  - rewrite !hexStringToUint8Array_pairs, evenPad_idem. reflexivity.
Qed.

(** X7: writing a non-negative BigInt in hexadecimal and reading the string
    back as bytes is lossless: the big-endian value of
    [hexStringToUint8Array(n.toString(16))] is [n], with or without the
    leading zero that [baseStringToHex] adds to an odd-length string. *)
Theorem hex_bytes_round_trip (n : Z) :
  0 <= n ->
  bigEndian (hexStringToUint8Array (toString16 n)) = n /\
  hexStringToUint8Array (evenPad (toString16 n))
  = hexStringToUint8Array (toString16 n).
Proof. exact (hex_bytes_round_trip_aux n). Qed.

Lemma hex_bytes_round_trip_witness :
  bigEndian (hexStringToUint8Array (toString16 4095)) = 4095 /\
  hexStringToUint8Array (evenPad (toString16 4095))
  = hexStringToUint8Array (toString16 4095).
Proof.
  apply (hex_bytes_round_trip 4095). lia.
Defined.

(** ** [baseStringToHex] *)

Lemma toLowerCase_chars (s : string) :
  list_ascii_of_string (toLowerCase s) = map lower (list_ascii_of_string s).
Proof.
  induction s as [|c s IH]; simpl; congruence.
Qed.

(** A character is found in [digits], once lower-cased, exactly when it is
    an ASCII letter or digit; its value is then below 36. *)
Lemma indexOf_digits_alnum (c : ascii) :
  (indexOf digits (lower c) =? -1) = negb (isAlnum c) /\
  -1 <= indexOf digits (lower c) < 36.
Proof.
  destruct c as [[] [] [] [] [] [] [] []]; vm_compute; intuition congruence.
Qed.

Lemma digit_loop (base : Z) (chars : list ascii) :
  forall n,
    foldM (fun n ch =>
             let val := indexOf digits ch in
             if val =? -1
             then Throw (Error "Invalid character for base conversion")
             else Ok (n * base + val))
          (map lower chars) n
    = if forallb isAlnum chars
      then Ok (fold_left (fun n ch => n * base + indexOf digits ch)
                         (map lower chars) n)
      else Throw (Error "Invalid character for base conversion").
Proof.
  induction chars as [|c chars IH]; intros n; simpl; [reflexivity|].
  destruct (indexOf_digits_alnum c) as [E _]. rewrite E.
  destruct (isAlnum c); simpl; [apply IH|reflexivity].
Qed.

Lemma baseStringToHex_unfold (str : string) (base : Z) :
  baseStringToHex str base =
  if forallb isAlnum (list_ascii_of_string str)
  then Ok (evenPad (toString16 (digitsValue str base)))
  else Throw (Error "Invalid character for base conversion").
Proof.
  unfold baseStringToHex, digitsValue. rewrite toLowerCase_chars, digit_loop.
  destruct (forallb isAlnum (list_ascii_of_string str)); reflexivity.
Qed.

(** X8: [baseStringToHex] accepts exactly the strings of ASCII letters and
    digits, whatever the base: a digit is never compared with the base.  On
    such a string it returns the hexadecimal text of the accumulated number,
    with a leading zero when needed to make its length even; on any other
    string it throws the error "Invalid character for base conversion". *)
Theorem baseStringToHex_spec (str : string) (base : Z) :
  baseStringToHex str base =
  if forallb isAlnum (list_ascii_of_string str)
  then Ok (evenPad (toString16 (digitsValue str base)))
  else Throw (Error "Invalid character for base conversion").
Proof. exact (baseStringToHex_unfold str base). Qed.

Lemma digitsValue_nonneg (str : string) (base : Z) :
  0 <= base -> forallb isAlnum (list_ascii_of_string str) = true ->
  0 <= digitsValue str base.
Proof.
  intros Hb. unfold digitsValue. rewrite toLowerCase_chars.
  assert (H : forall chars n, 0 <= n -> forallb isAlnum chars = true ->
            0 <= fold_left (fun n ch => n * base + indexOf digits ch)
                           (map lower chars) n).
  { induction chars as [|c chars IH]; intros n Hn Hc; simpl in *; [exact Hn|].
    apply andb_prop in Hc. destruct Hc as [Hc Hcs].
    apply IH; [|exact Hcs].
    destruct (indexOf_digits_alnum c) as [E R]. rewrite Hc in E.
    apply Z.eqb_neq in E. nia. }
  apply H. lia.
Qed.

Lemma hexStringToUint8Array_length (hex : string) :
  List.length (hexStringToUint8Array hex) = (String.length (evenPad hex) / 2)%nat.
Proof.
  unfold hexStringToUint8Array. fold (evenPad hex).
  rewrite length_map, length_seq. reflexivity.
Qed.

Lemma toUint8_range (v : option Z) : 0 <= toUint8 v < 256.
Proof.
  destruct v as [n|]; simpl; [apply Z.mod_pos_bound|]; lia.
Qed.

Lemma hexStringToUint8Array_range (hex : string) :
  Forall (fun b => 0 <= b < 256) (hexStringToUint8Array hex).
Proof.
  unfold hexStringToUint8Array. apply Forall_forall. intros b Hb.
  apply in_map_iff in Hb. destruct Hb as (i & <- & _). apply toUint8_range.
Qed.

(** X9: for a base that is not negative, the bytes made from the result of
    [baseStringToHex] are the number the digit string denotes in that base,
    written big-endian: converting through the hexadecimal text loses
    nothing.  The text has even length and gives one byte per two
    characters. *)
Theorem baseStringToHex_bytes (str : string) (base : Z) (hex : string) :
  0 <= base ->
  baseStringToHex str base = Ok hex ->
  bigEndian (hexStringToUint8Array hex) = digitsValue str base /\
  (String.length hex mod 2 = 0)%nat /\
  List.length (hexStringToUint8Array hex) = (String.length hex / 2)%nat.
Proof.
  intros Hb H. rewrite baseStringToHex_unfold in H.
  destruct (forallb isAlnum (list_ascii_of_string str)) eqn:Hc; [|discriminate].
  injection H as <-.
  pose proof (digitsValue_nonneg str base Hb Hc) as Hn.
  destruct (hex_bytes_round_trip_aux (digitsValue str base) Hn) as [Hv Hp].
  repeat split.
  - rewrite Hp. exact Hv.
  - apply evenPad_length.
  - rewrite hexStringToUint8Array_length, evenPad_idem. reflexivity.
Qed.

Lemma baseStringToHex_bytes_witness :
  bigEndian (hexStringToUint8Array "01c8") = digitsValue "111001000" 2 /\
  (String.length "01c8" mod 2 = 0)%nat /\
  List.length (hexStringToUint8Array "01c8") = (String.length "01c8" / 2)%nat.
Proof.
  apply (baseStringToHex_bytes "111001000" 2 "01c8"); [lia | reflexivity].
Defined.

(** ** [padDataBytes] *)

Lemma bigEndian_zeros (n : nat) (data : list Z) :
  bigEndian (repeat 0 n ++ data) = bigEndian data.
Proof.
  unfold bigEndian. induction n as [|n IH]; simpl; [reflexivity|exact IH].
Qed.

(** X10: [padDataBytes] returns [max len (length data)] bytes: the data
    itself when it is already long enough (it is never truncated), and
    otherwise the data preceded by zero bytes, which leaves its big-endian
    value unchanged. *)
Theorem padDataBytes_spec (data : list Z) (len : nat) :
  padDataBytes data len = repeat 0 (len - List.length data) ++ data /\
  List.length (padDataBytes data len) = Nat.max len (List.length data) /\
  bigEndian (padDataBytes data len) = bigEndian data.
Proof.
  assert (H : padDataBytes data len = repeat 0 (len - List.length data) ++ data).
  { unfold padDataBytes.
    destruct (Nat.leb_spec len (List.length data)) as [Hle|Hgt]; [|reflexivity].
    replace (len - List.length data)%nat with 0%nat by lia. reflexivity. }
  rewrite H. repeat split.
  - rewrite length_app, repeat_length. lia.
  - apply bigEndian_zeros.
Qed.

(** ** [formatSharesFromJSON] *)

Lemma mapM_Forall2 {A B : Type} (f : A -> result B) (l : list A) (bs : list B) :
  mapM f l = Ok bs -> Forall2 (fun a b => f a = Ok b) l bs.
Proof.
  revert bs; induction l as [|a l IH]; simpl; intros bs H.
  - injection H as <-. constructor.
  - destruct (f a) as [b|] eqn:Ea; [|discriminate]. simpl in H.
    destruct (mapM f l) as [bs'|]; [|discriminate]. simpl in H.
    injection H as <-. constructor; auto.
Qed.

Lemma mapM_map {A B C : Type} (f : B -> result C) (g : A -> B) (l : list A) :
  mapM f (map g l) = mapM (fun a => f (g a)) l.
Proof.
  induction l as [|a l IH]; simpl; [reflexivity|]. rewrite IH. reflexivity.
Qed.

(** The first loop: one hexadecimal text per record, and the running
    maximum of their byte lengths. *)
Lemma collect_loop (data : json) :
  forall sd0 m0,
    foldM (fun '(sharesData, maxDataLen) '(key, e) =>
             if String.eqb key "keys" then Ok (sharesData, maxDataLen)
             else
               hexVal <- baseStringToHex (value e) (base e) ;;
               Ok (sharesData ++ [ {| index := parseInt key 0; hexVal := hexVal |} ],
                   Nat.max maxDataLen (String.length hexVal / 2)))
          data (sd0, m0)
    = hexes <- mapM hexOf (records data) ;;
      Ok (sd0 ++ map (fun rh => {| index := parseInt (fst (fst rh)) 0;
                                   hexVal := snd rh |})
                     (combine (records data) hexes),
          maxLen hexes m0).
Proof.
  induction data as [|[key e] data IH]; intros sd0 m0; simpl.
  - rewrite app_nil_r. reflexivity.
  - destruct (String.eqb key "keys"); simpl; [apply IH|].
    unfold hexOf at 1. simpl.
    destruct (baseStringToHex (value e) (base e)) as [h|err]; simpl; [|reflexivity].
    rewrite IH.
    destruct (mapM hexOf (records data)) as [hexes|err]; simpl; [|reflexivity].
    rewrite <- app_assoc. reflexivity.
Qed.

Lemma maxLen_ge (hexes : list string) :
  forall m0, (m0 <= maxLen hexes m0)%nat /\
             forall h, In h hexes -> (String.length h / 2 <= maxLen hexes m0)%nat.
Proof.
  unfold maxLen.
  induction hexes as [|h0 hexes IH]; intros m0; cbn [map fold_left In].
  - split; [lia | tauto].
  - destruct (IH (Nat.max m0 (String.length h0 / 2))) as [H1 H2]. split; [lia|].
    intros h [<-|Hin]; [lia | auto].
Qed.

Lemma hexOf_even (r : string * entry) (h : string) :
  hexOf r = Ok h -> (String.length h mod 2 = 0)%nat.
Proof.
  unfold hexOf. rewrite baseStringToHex_unfold.
  destruct (forallb isAlnum _); [|discriminate].
  intros H. injection H as <-. apply evenPad_length.
Qed.

Lemma evenPad_even (h : string) :
  (String.length h mod 2 = 0)%nat -> evenPad h = h.
Proof.
  intros H. unfold evenPad. rewrite H. reflexivity.
Qed.

(** The store [share.set(dataBytes, 1)] fits whenever the payload is at most
    [m] bytes long. *)
Lemma build_share (m : nat) (idx : Z) (bytes : list Z) :
  (List.length bytes <= m)%nat ->
  uint8_set (idx :: repeat 0 m) (padDataBytes bytes m) 1
  = Ok (idx :: padDataBytes bytes m).
Proof.
  intros Hle.
  assert (Hlen : List.length (padDataBytes bytes m) = m).
  { unfold padDataBytes. destruct (Nat.leb_spec m (List.length bytes)).
    - lia.
    - rewrite length_app, repeat_length. lia. }
  unfold uint8_set. rewrite Hlen. cbn [List.length]. rewrite repeat_length.
  replace (S m <? 1 + m)%nat with false by (symmetry; apply Nat.ltb_ge; lia).
  cbn [firstn Nat.add skipn].
  rewrite skipn_all2 by (rewrite repeat_length; lia).
  rewrite app_nil_r. reflexivity.
Qed.

(** The second loop never fails: every share is built. *)
Lemma build_loop (recs : json) (hexes : list string) (m : nat) :
  Forall2 (fun r h => hexOf r = Ok h) recs hexes ->
  (forall h, In h hexes -> (String.length h / 2 <= m)%nat) ->
  mapM (fun sd =>
          let dataBytes := hexStringToUint8Array (hexVal sd) in
          let dataBytes := padDataBytes dataBytes m in
          uint8_set (toUint8 (index sd) :: repeat 0 m) dataBytes 1)
       (map (fun rh => {| index := parseInt (fst (fst rh)) 0; hexVal := snd rh |})
            (combine recs hexes))
  = Ok (map (shareOf m) (combine recs hexes)).
Proof.
  intros HF Hm. rewrite mapM_map.
  apply mapM_total. apply Forall_forall. intros [r h] Hin.
  cbn [index hexVal fst snd]. unfold shareOf. cbn [fst snd].
  apply build_share.
  rewrite hexStringToUint8Array_length.
  assert (Hh : In h hexes) by (apply in_combine_r in Hin; exact Hin).
  assert (Hev : (String.length h mod 2 = 0)%nat).
  { pose proof (in_combine_l _ _ _ _ Hin) as Hr.
    clear Hm Hh. induction HF as [|r' h' recs hexes Hrh HF IH]; [destruct Hin|].
    destruct Hin as [E|Hin].
    - injection E as <- <-. eapply hexOf_even; eassumption.
    - apply IH; [exact Hin | eapply in_combine_l; exact Hin]. }
  rewrite evenPad_even by exact Hev. auto.
Qed.

(** The third loop: it returns normally exactly when no two hexadecimal
    renderings are equal. *)
Lemma duplicate_loop (shares : list (list Z)) :
  forall seen,
    (NoDup (seen ++ map bytesToHex shares) ->
     foldM (fun seen share =>
              let hex := bytesToHex share in
              if existsb (String.eqb hex) seen
              then Throw (Error ("Duplicate share detected for hex: " ++ hex))
              else Ok (seen ++ [hex]))
           shares seen = Ok (seen ++ map bytesToHex shares)) /\
    (~ NoDup (seen ++ map bytesToHex shares) -> NoDup seen ->
     exists s,
       In s shares /\
       foldM (fun seen share =>
                let hex := bytesToHex share in
                if existsb (String.eqb hex) seen
                then Throw (Error ("Duplicate share detected for hex: " ++ hex))
                else Ok (seen ++ [hex]))
             shares seen
       = Throw (Error ("Duplicate share detected for hex: " ++ bytesToHex s))).
Proof.
  induction shares as [|s shares IH]; intros seen; cbn [map foldM].
  - split; [intros _; rewrite app_nil_r; reflexivity|].
    intros Hn Hs. rewrite app_nil_r in Hn. contradiction.
  - assert (Hex : existsb (String.eqb (bytesToHex s)) seen = true
                  <-> In (bytesToHex s) seen).
    { rewrite existsb_exists. split.
      - intros (x & Hx & E). apply String.eqb_eq in E. subst x. exact Hx.
      - intros Hin. exists (bytesToHex s). split; [exact Hin|apply String.eqb_refl]. }
    replace (seen ++ bytesToHex s :: map bytesToHex shares)
      with ((seen ++ [bytesToHex s]) ++ map bytesToHex shares)
      by (rewrite <- app_assoc; reflexivity).
    destruct (IH (seen ++ [bytesToHex s])) as [IH1 IH2].
    destruct (existsb (String.eqb (bytesToHex s)) seen) eqn:E; cbn [bind].
    + assert (Hin : In (bytesToHex s) seen) by (apply Hex; reflexivity).
      split.
      * intros Hnd. exfalso.
        rewrite <- app_assoc in Hnd. simpl in Hnd.
        apply NoDup_remove_2 in Hnd. apply Hnd. apply in_or_app. left. exact Hin.
      * intros _ _. exists s. split; [left; reflexivity|reflexivity].
    + assert (Hnin : ~ In (bytesToHex s) seen).
      { intros Hin. apply Hex in Hin. congruence. }
      split; [exact IH1|].
      intros Hn Hs. destruct IH2 as (s' & Hs' & Ht); [exact Hn| |].
      * apply NoDup_app; [exact Hs | repeat constructor; simpl; tauto |].
        intros x Hx [<-|[]]. contradiction.
      * exists s'. split; [right; exact Hs'|exact Ht].
Qed.

Lemma hexes_spec (recs : json) :
  mapM hexOf recs =
  if forallb validRecord recs then Ok (map hexText recs)
  else Throw (Error "Invalid character for base conversion").
Proof.
  induction recs as [|r recs IH]; cbn [mapM forallb map]; [reflexivity|].
  unfold hexOf at 1. rewrite baseStringToHex_unfold. fold (validRecord r).
  destruct (validRecord r); cbn [bind andb]; [|reflexivity].
  rewrite IH. destruct (forallb validRecord recs); reflexivity.
Qed.

Lemma duplicateCheck_spec (shares : list (list Z)) :
  (NoDup (map bytesToHex shares) ->
   duplicateCheck shares = Ok (map bytesToHex shares)) /\
  (~ NoDup (map bytesToHex shares) ->
   exists s, In s shares /\
             duplicateCheck shares =
             Throw (Error ("Duplicate share detected for hex: " ++ bytesToHex s))).
Proof.
  destruct (duplicate_loop shares []) as [Hok Hdup]. split.
  - exact Hok.
  - intros Hn. apply Hdup; [exact Hn | constructor].
Qed.

(** [formatSharesFromJSON] once its first two loops are carried out. *)
Lemma formatSharesFromJSON_unfold (data : json) :
  formatSharesFromJSON data =
  if forallb validRecord (records data) then
    _ <- duplicateCheck (formattedShares data) ;;
    Ok (formattedShares data)
  else Throw (Error "Invalid character for base conversion").
Proof.
  unfold formatSharesFromJSON. rewrite collect_loop.
  pose proof (hexes_spec (records data)) as Hh.
  destruct (forallb validRecord (records data)); rewrite Hh; cbn [bind];
    [|reflexivity].
  cbn [app]. rewrite build_loop.
  - reflexivity.
  - apply mapM_Forall2. exact Hh.
  - intros h Hin. apply (maxLen_ge (map hexText (records data)) 0). exact Hin.
Qed.

Lemma hexDigit_value (v : Z) :
  0 <= v < 16 -> indexOf digits (hexDigit v) = v.
Proof.
  intros H.
  assert (E : v = 0 \/ v = 1 \/ v = 2 \/ v = 3 \/ v = 4 \/ v = 5 \/ v = 6
              \/ v = 7 \/ v = 8 \/ v = 9 \/ v = 10 \/ v = 11 \/ v = 12
              \/ v = 13 \/ v = 14 \/ v = 15) by lia.
  clear H. repeat (destruct E as [E|E]); subst v; reflexivity.
Qed.

Lemma bytesToHex_inj (l1 : list Z) :
  forall l2,
    Forall isByte l1 -> Forall isByte l2 ->
    bytesToHex l1 = bytesToHex l2 -> l1 = l2.
Proof.
  induction l1 as [|b1 l1 IH]; intros [|b2 l2] H1 H2 E; simpl in E;
    try discriminate; [reflexivity|].
  inversion H1 as [|? ? Hb1 H1']; subst. inversion H2 as [|? ? Hb2 H2']; subst.
  injection E as Ehi Elo Erest. unfold isByte in Hb1, Hb2.
  apply (f_equal (indexOf digits)) in Ehi, Elo.
  pose proof (Z.mod_pos_bound b1 16 ltac:(lia)).
  pose proof (Z.mod_pos_bound b2 16 ltac:(lia)).
  pose proof (Z.div_mod b1 16 ltac:(lia)).
  pose proof (Z.div_mod b2 16 ltac:(lia)).
  rewrite !hexDigit_value in Ehi, Elo by lia.
  f_equal; [lia | auto].
Qed.

Lemma NoDup_map_on {A B : Type} (f : A -> B) (l : list A) :
  (forall x y, In x l -> In y l -> f x = f y -> x = y) ->
  NoDup l -> NoDup (map f l).
Proof.
  intros Hinj Hnd. induction Hnd as [|a l Hnin Hnd IH]; simpl; constructor.
  - intros Hin. apply in_map_iff in Hin. destruct Hin as (x & E & Hx).
    assert (x = a) by (apply Hinj; simpl; auto). subst x. contradiction.
  - apply IH. intros x y Hx Hy. apply Hinj; simpl; auto.
Qed.

Lemma padDataBytes_bytes (data : list Z) (len : nat) :
  Forall isByte data -> Forall isByte (padDataBytes data len).
Proof.
  intros H. unfold padDataBytes. destruct (len <=? List.length data)%nat; [exact H|].
  apply Forall_app. split; [|exact H].
  apply Forall_forall. intros b Hb. apply repeat_spec in Hb. subst b.
  unfold isByte. lia.
Qed.

Lemma padDataBytes_length_le (bytes : list Z) (m : nat) :
  (List.length bytes <= m)%nat -> List.length (padDataBytes bytes m) = m.
Proof.
  intros Hle. unfold padDataBytes.
  destruct (Nat.leb_spec m (List.length bytes)); [lia|].
  rewrite length_app, repeat_length. lia.
Qed.

Lemma hexText_bytes_length (r : string * entry) :
  List.length (hexStringToUint8Array (hexText r))
  = (String.length (hexText r) / 2)%nat.
Proof.
  rewrite hexStringToUint8Array_length. unfold hexText.
  rewrite evenPad_idem. reflexivity.
Qed.

(** Every share the formatter builds is an index byte followed by exactly
    [maxLen] payload bytes. *)
Lemma formattedShares_shape (data : json) :
  List.length (formattedShares data) = List.length (records data) /\
  Forall (fun s => List.length s
                   = S (maxLen (map hexText (records data)) 0)
                   /\ Forall isByte s)
         (formattedShares data).
Proof.
  unfold formattedShares. split.
  - rewrite length_map, length_combine, length_map. lia.
  - apply Forall_forall. intros s Hs.
    apply in_map_iff in Hs. destruct Hs as ([r h] & <- & Hin).
    apply in_combine_r in Hin.
    pose proof (proj2 (maxLen_ge (map hexText (records data)) 0) h Hin) as Hle.
    apply in_map_iff in Hin. destruct Hin as (r' & <- & _).
    unfold shareOf. cbn [fst snd List.length]. split.
    + f_equal. apply padDataBytes_length_le.
      rewrite hexText_bytes_length. exact Hle.
    + constructor; [apply toUint8_range|].
      apply padDataBytes_bytes, hexStringToUint8Array_range.
Qed.

Lemma formattedShares_hex_NoDup (data : json) :
  NoDup (map bytesToHex (formattedShares data)) <-> NoDup (formattedShares data).
Proof.
  split; [apply NoDup_map_inv|].
  apply NoDup_map_on. intros x y Hx Hy.
  destruct (formattedShares_shape data) as [_ HF]. rewrite Forall_forall in HF.
  apply bytesToHex_inj; [apply (HF x Hx) | apply (HF y Hy)].
Qed.



Lemma formatSharesFromJSON_Ok_inv (data : json) (shares : list (list Z)) :
  formatSharesFromJSON data = Ok shares ->
  forallb validRecord (records data) = true /\
  shares = formattedShares data /\
  NoDup shares.
Proof.
  rewrite formatSharesFromJSON_unfold.
  destruct (forallb validRecord (records data)); [|discriminate].
  destruct (duplicateCheck_spec (formattedShares data)) as [_ Hdup].
  destruct (ListDec.NoDup_dec (list_eq_dec Z.eq_dec) (formattedShares data))
    as [Hnd|Hnd].
  - destruct (duplicateCheck (formattedShares data)); cbn [bind]; [|discriminate].
    intros H. injection H as <-. auto.
  - destruct Hdup as (s & _ & Ht);
      [rewrite formattedShares_hex_NoDup; exact Hnd |].
    rewrite Ht. discriminate.
Qed.

(** X12: what [formatSharesFromJSON] returns: as many shares as the object
    has members other than [keys], all of one length (the index byte and at
    least zero payload bytes), made of bytes, and pairwise different. *)
Theorem formatSharesFromJSON_shape (data : json) (shares : list (list Z)) :
  formatSharesFromJSON data = Ok shares ->
  List.length shares = List.length (records data) /\
  (exists m, Forall (fun s => List.length s = S m) shares) /\
  Forall (Forall isByte) shares /\
  NoDup shares.
Proof.
  intros H. apply formatSharesFromJSON_Ok_inv in H.
  destruct H as (_ & -> & Hnd).
  destruct (formattedShares_shape data) as [Hlen HF].
  repeat split; try assumption.
  - exists (maxLen (map hexText (records data)) 0).
    eapply Forall_impl; [|exact HF]. intros s [Hs _]. exact Hs.
  - eapply Forall_impl; [|exact HF]. intros s [_ Hs]. exact Hs.
Qed.

Lemma formatSharesFromJSON_shape_witness :
  List.length [[1; 0; 7]; [2; 1; 244]]
  = List.length (records [("1"%string, {| base := 10; value := "7" |});
                          ("keys"%string, {| base := 0; value := "" |});
                          ("2"%string, {| base := 16; value := "1F4" |})]) /\
  (exists m, Forall (fun s => List.length s = S m) [[1; 0; 7]; [2; 1; 244]]) /\
  Forall (Forall isByte) [[1; 0; 7]; [2; 1; 244]] /\
  NoDup [[1; 0; 7]; [2; 1; 244]].
Proof.
  apply (formatSharesFromJSON_shape
    [("1"%string, {| base := 10; value := "7" |});
     ("keys"%string, {| base := 0; value := "" |});
     ("2"%string, {| base := 16; value := "1F4" |})]).
  reflexivity.
Defined.

(** ** From the JSON object to the points *)

Lemma combine_map_self {A B : Type} (f : A -> B) (l : list A) :
  combine l (map f l) = map (fun a => (a, f a)) l.
Proof.
  induction l as [|a l IH]; simpl; congruence.
Qed.

Lemma padDataBytes_bigEndian (data : list Z) (len : nat) :
  bigEndian (padDataBytes data len) = bigEndian data.
Proof.
  unfold padDataBytes. destruct (len <=? List.length data)%nat; [reflexivity|].
  apply bigEndian_zeros.
Qed.

Lemma formattedShares_nonempty (data : json) :
  Forall (fun s => s <> []) (formattedShares data).
Proof.
  destruct (formattedShares_shape data) as [_ HF].
  eapply Forall_impl; [|exact HF].
  intros s [Hlen _] ->. discriminate Hlen.
Qed.

(** X13: formatting followed by [sharesToPoints], for bases that are not
    negative: the points are built without an exception, one per record in
    order; the [x] of a point is the index byte of its share and its [y] is
    the number that the record's [value] denotes in its [base].  Padding and
    the passage through hexadecimal text and bytes change nothing. *)
Theorem formatSharesFromJSON_points (data : json) (shares : list (list Z)) :
  Forall (fun r => 0 <= base (snd r)) (records data) ->
  formatSharesFromJSON data = Ok shares ->
  exists points,
    sharesToPoints shares = Ok points /\
    map fst points = map (hd 0) shares /\
    map snd points
    = map (fun r => digitsValue (value (snd r)) (base (snd r))) (records data).
Proof.
  intros Hbase H. apply formatSharesFromJSON_Ok_inv in H.
  destruct H as (Hvalid & -> & _).
  exists (pointsOf (formattedShares data)).
  split; [apply sharesToPoints_nonempty, formattedShares_nonempty|].
  unfold pointsOf. rewrite !map_map. split; [reflexivity|].
  unfold formattedShares. rewrite combine_map_self, !map_map.
  apply map_ext_in. intros r Hr. unfold shareOf. cbn [fst snd hd tl].
  rewrite padDataBytes_bigEndian. unfold hexText.
  rewrite forallb_forall in Hvalid. rewrite Forall_forall in Hbase.
  pose proof (digitsValue_nonneg _ _ (Hbase r Hr) (Hvalid r Hr)) as Hn.
  destruct (hex_bytes_round_trip_aux _ Hn) as [Hv Hp].
  rewrite Hp. exact Hv.
Qed.

Lemma formatSharesFromJSON_points_witness :
  exists points,
    sharesToPoints [[1; 0; 7]; [2; 1; 244]] = Ok points /\
    map fst points = map (hd 0) [[1; 0; 7]; [2; 1; 244]] /\
    map snd points
    = map (fun r => digitsValue (value (snd r)) (base (snd r)))
          (records [("1"%string, {| base := 10; value := "7" |});
                    ("keys"%string, {| base := 0; value := "" |});
                    ("2"%string, {| base := 16; value := "1F4" |})]).
Proof.
  apply (formatSharesFromJSON_points
    [("1"%string, {| base := 10; value := "7" |});
     ("keys"%string, {| base := 0; value := "" |});
     ("2"%string, {| base := 16; value := "1F4" |})]).
  - repeat constructor; simpl; lia.
  - reflexivity.
Defined.

Lemma bigEndian_snoc (l : list Z) (b : Z) :
  bigEndian (l ++ [b]) = bigEndian l * 256 + b.
Proof.
  unfold bigEndian. rewrite fold_left_app. cbn [fold_left].
  rewrite Z.shiftl_mul_pow2 by lia. reflexivity.
Qed.

(** Byte sequences of one length with the same big-endian value are equal. *)
Lemma bigEndian_inj (l1 : list Z) :
  forall l2,
    List.length l1 = List.length l2 ->
    Forall isByte l1 -> Forall isByte l2 ->
    bigEndian l1 = bigEndian l2 -> l1 = l2.
Proof.
  induction l1 as [|b1 l1 IH] using rev_ind; intros l2 Hlen H1 H2 E.
  - destruct l2; [reflexivity | discriminate].
  - destruct l2 as [|b2 l2 _] using rev_ind.
    + rewrite length_app in Hlen. simpl in Hlen. lia.
    + rewrite !length_app in Hlen. simpl in Hlen.
      apply Forall_app in H1, H2. destruct H1 as [H1 Hb1], H2 as [H2 Hb2].
      inversion Hb1 as [|? ? Hb1' _]; subst. inversion Hb2 as [|? ? Hb2' _]; subst.
      rewrite !bigEndian_snoc in E. unfold isByte in *.
      assert (b1 = b2 /\ bigEndian l1 = bigEndian l2) as [-> E'] by lia.
      f_equal. apply IH; (lia || assumption).
Qed.

(** X14: the points of formatted shares are pairwise different: two records
    can give the same [x] (keys that agree modulo 256, or that parse to the
    same number), but then their [y] differ. *)
Theorem formatSharesFromJSON_points_distinct
  (data : json) (shares : list (list Z)) (points : list point) :
  formatSharesFromJSON data = Ok shares ->
  sharesToPoints shares = Ok points ->
  NoDup points.
Proof.
  intros H Hp. apply formatSharesFromJSON_Ok_inv in H.
  destruct H as (_ & -> & Hnd).
  rewrite (sharesToPoints_nonempty _ (formattedShares_nonempty data)) in Hp.
  injection Hp as <-. unfold pointsOf.
  apply NoDup_map_on; [|exact Hnd].
  destruct (formattedShares_shape data) as [_ HF]. rewrite Forall_forall in HF.
  intros s1 s2 Hs1 Hs2 E.
  destruct (HF s1 Hs1) as [Hl1 Hb1], (HF s2 Hs2) as [Hl2 Hb2].
  destruct s1 as [|i1 t1]; [discriminate|]. destruct s2 as [|i2 t2]; [discriminate|].
  cbn [hd tl] in E. injection E as -> Et.
  inversion Hb1; subst. inversion Hb2; subst.
  f_equal. apply bigEndian_inj; try assumption.
  simpl in Hl1, Hl2. lia.
Qed.

Lemma formatSharesFromJSON_points_distinct_witness :
  NoDup [(1, 7); (1, 500)].
Proof.
  apply (formatSharesFromJSON_points_distinct
    [("1"%string, {| base := 10; value := "7" |});
     ("257"%string, {| base := 16; value := "1F4" |})]
    [[1; 0; 7]; [1; 1; 244]]); reflexivity.
Defined.

(** ** The driver *)

Lemma gcd_small_PRIME (d : Z) : 1 < d < 256 -> Z.gcd d PRIME = 1.
Proof.
  intros Hd.
  assert (H : forallb (fun d => Z.gcd d PRIME =? 1)
                      (map Z.of_nat (seq 2 254)) = true)
    by (vm_compute; reflexivity).
  rewrite forallb_forall in H. apply Z.eqb_eq. apply H.
  apply in_map_iff. exists (Z.to_nat d). split; [lia|].
  apply in_seq. lia.
Qed.

(** X15: in [processFile] the detection step never throws: whatever the
    JSON object and the threshold, once the shares are formatted,
    [detectWrongShares] with the hard-coded modulus returns an object, so
    the only exceptions of formatting followed by detection are the two
    errors of [formatSharesFromJSON]. *)
Theorem processFile_throws_only_formatting_errors (data : json) (threshold : Z) :
  (forall shares, formatSharesFromJSON data = Ok shares ->
                  exists r, processFile data threshold = Ok r) /\
  (forall e, processFile data threshold = Throw e ->
             formatSharesFromJSON data = Throw e).
Proof.
  assert (Hdet : forall shares, formatSharesFromJSON data = Ok shares ->
            exists r, detectWrongShares shares threshold PRIME = Ok r).
  { intros shares H. apply formatSharesFromJSON_Ok_inv in H.
    destruct H as (_ & -> & _).
    destruct (formattedShares_shape data) as [_ HF]. rewrite Forall_forall in HF.
    assert (Hidx : forall x, In x (map (hd 0) (formattedShares data)) -> isByte x).
    { intros x Hx. apply in_map_iff in Hx. destruct Hx as (s & <- & Hs).
      destruct (HF s Hs) as [Hl Hb]. destruct s; [discriminate|].
      inversion Hb; subst. assumption. }
    apply detectWrongShares_ok.
    - apply formattedShares_nonempty.
    - vm_compute. discriminate.
    - intros xi xj Hi Hj Hd _. apply Hidx in Hi, Hj. unfold isByte in *.
      apply gcd_small_PRIME. lia. }
  unfold processFile. split.
  - intros shares H. rewrite H. cbn [bind]. apply Hdet. exact H.
  - intros e. destruct (formatSharesFromJSON data) as [shares|e'] eqn:H;
      cbn [bind]; [|congruence].
    destruct (Hdet shares eq_refl) as [r Hr]. rewrite Hr. discriminate.
Qed.

(** ** Ranges of the computed values *)

(** A loop whose every iteration ends with [% prime] leaves either its
    initial accumulator or a value strictly between [-|prime|] and
    [|prime|]. *)
Lemma rem_loop_range {A : Type} (prime : Z) (body : Z -> A -> result Z) (l : list A) :
  (forall acc a v, body acc a = Ok v -> Z.abs v < Z.abs prime) ->
  forall acc v, foldM body l acc = Ok v ->
                (l = [] /\ v = acc) \/ Z.abs v < Z.abs prime.
Proof.
  intros Hbody. induction l as [|a l IH]; intros acc v H; simpl in H.
  - injection H as <-. left. auto.
  - destruct (body acc a) as [acc'|] eqn:E; [|discriminate]. simpl in H.
    right. destruct (IH acc' v H) as [[_ ->]|Hv]; [|exact Hv].
    eapply Hbody. exact E.
Qed.

Lemma bigint_rem_range (a p v : Z) :
  bigint_rem a p = Ok v -> Z.abs v < Z.abs p.
Proof.
  unfold bigint_rem. destruct (Z.eqb_spec p 0) as [|Hp]; [discriminate|].
  intros H. injection H as <-.
  pose proof (Z.rem_bound_abs a p Hp). lia.
Qed.

Lemma yEstimateAt_range (subset : list point) (prime x e : Z) :
  yEstimateAt subset prime x = Ok e ->
  (subset = [] /\ e = 0) \/ Z.abs e < Z.abs prime.
Proof.
  unfold yEstimateAt. intros H.
  apply (rem_loop_range prime) in H.
  - destruct H as [[Hs ->]|H]; [left|right; exact H].
    split; [|reflexivity]. destruct subset; [reflexivity|discriminate].
  - intros acc i v Hv. destruct (at_ subset i) as [xi yi].
    destruct (foldM _ _ 1) as [li|]; [|discriminate]. simpl in Hv.
    eapply bigint_rem_range. exact Hv.
Qed.

(** X16: whenever [lagrangeInterpolationAtZero] returns, its value lies
    strictly between [-|prime|] and [|prime|] (it is 0 for no points); the
    negative half of that range is reachable. *)
Theorem lagrangeInterpolationAtZero_range (points : list point) (prime s : Z) :
  lagrangeInterpolationAtZero points prime = Ok s ->
  (points = [] /\ s = 0) \/ - Z.abs prime < s < Z.abs prime.
Proof.
  unfold lagrangeInterpolationAtZero. intros H.
  apply (rem_loop_range prime) in H.
  - destruct H as [[Hs ->]|H]; [left|right; lia].
    split; [|reflexivity]. destruct points; [reflexivity|discriminate].
  - intros acc i v Hv. destruct (at_ points i) as [xi yi].
    destruct (foldM _ _ 1) as [li|]; [|discriminate]. simpl in Hv.
    eapply bigint_rem_range. exact Hv.
Qed.

Lemma lagrangeInterpolationAtZero_range_witness :
  ([(1, 6); (3, 4)] = [] /\ -20 = 0) \/ - Z.abs PRIME < -20 < Z.abs PRIME.
Proof.
  apply (lagrangeInterpolationAtZero_range [(1, 6); (3, 4)] PRIME (-20)).
  vm_compute. reflexivity.
Defined.

(** ** Which shares are reported *)

Lemma sharesToPoints_Ok_inv (shares : list (list Z)) (points : list point) :
  sharesToPoints shares = Ok points ->
  Forall (fun s => s <> []) shares /\ points = pointsOf shares.
Proof.
  intros H.
  assert (Hne : Forall (fun s => s <> []) shares).
  { unfold sharesToPoints in H. apply mapM_Forall2 in H.
    induction H as [|s pt shares points Hs _ IH]; constructor; [|exact IH].
    intros ->. discriminate Hs. }
  split; [exact Hne|].
  rewrite (sharesToPoints_nonempty _ Hne) in H. congruence.
Qed.

(** [detectWrongShares] once the length test has passed, for any threshold. *)
Lemma detectWrongShares_unfold (shares : list (list Z)) (threshold prime : Z) :
  threshold <= Z.of_nat (List.length shares) ->
  detectWrongShares shares threshold prime =
  points <- sharesToPoints shares ;;
  s <- lagrangeInterpolationAtZero (slice0 points threshold) prime ;;
  ests <- estimates (slice0 points threshold) points prime ;;
  Ok {| secret := Some s; wrongShares := mismatches points ests |}.
Proof.
  intros H. unfold detectWrongShares.
  replace (Z.of_nat (List.length shares) <? threshold) with false
    by (symmetry; apply Z.ltb_ge; lia).
  destruct (sharesToPoints shares) as [points|err]; cbn [bind]; [|reflexivity].
  destruct (lagrangeInterpolationAtZero _ prime) as [s|err]; cbn [bind];
    [|reflexivity].
  rewrite check_loop.
  destruct (estimates _ points prime); reflexivity.
Qed.

Lemma mismatches_In (points : list point) (ests : list Z) (x y e : Z) :
  In ((x, y), e) (combine points ests) -> e <> y ->
  In (x, toString y) (mismatches points ests).
Proof.
  intros Hin Hne. unfold mismatches.
  apply in_map_iff. exists ((x, y), e). split; [reflexivity|].
  apply filter_In. split; [exact Hin|]. cbn [fst snd].
  apply negb_true_iff. apply Z.eqb_neq. exact Hne.
Qed.

Lemma Forall2_combine_In {A B : Type} (R : A -> B -> Prop) (l : list A) (l' : list B) (a : A) :
  Forall2 R l l' -> In a l -> exists b, In (a, b) (combine l l') /\ R a b.
Proof.
  induction 1 as [|a0 b0 l l' Hab _ IH]; intros Hin; [destruct Hin|].
  destruct Hin as [->|Hin].
  - exists b0. split; [left; reflexivity | exact Hab].
  - destruct (IH Hin) as (b & Hb & HR). exists b. split; [right; exact Hb|exact HR].
Qed.

(** X17: a share whose value is positive and not below [|prime|] is always
    reported, whatever the other shares are: every estimate is smaller in
    absolute value than the modulus, and the share's value is compared as it
    is, without being reduced. *)
Theorem detectWrongShares_reports_large_values
  (shares : list (list Z)) (threshold prime : Z) (r : detection)
  (i : Z) (payload : list Z) :
  detectWrongShares shares threshold prime = Ok r ->
  threshold <= Z.of_nat (List.length shares) ->
  In (i :: payload) shares ->
  0 < bigEndian payload -> Z.abs prime <= bigEndian payload ->
  In (i, toString (bigEndian payload)) (wrongShares r).
Proof.
  intros H Ht Hin Hpos Hbig.
  rewrite detectWrongShares_unfold in H by exact Ht.
  destruct (sharesToPoints shares) as [points|] eqn:Hpts; [|discriminate].
  cbn [bind] in H.
  destruct (lagrangeInterpolationAtZero _ prime) as [s|]; [|discriminate].
  cbn [bind] in H.
  destruct (estimates _ points prime) as [ests|] eqn:Hests; [|discriminate].
  cbn [bind] in H. injection H as <-. cbn [wrongShares].
  apply sharesToPoints_Ok_inv in Hpts. destruct Hpts as [_ ->].
  assert (Hpt : In (i, bigEndian payload) (pointsOf shares)).
  { unfold pointsOf. apply in_map_iff. exists (i :: payload). auto. }
  unfold estimates in Hests. apply mapM_Forall2 in Hests.
  destruct (Forall2_combine_In _ _ _ _ Hests Hpt) as (e & He & Hest).
  cbn [fst] in Hest. apply yEstimateAt_range in Hest.
  eapply mismatches_In; [exact He|].
  destruct Hest as [[_ ->]|Hr]; lia.
Qed.

Lemma detectWrongShares_reports_large_values_witness :
  In (2, toString (bigEndian [9]))
     (wrongShares {| secret := Some 2; wrongShares := [(2, "9"%string)] |}).
Proof.
  apply (detectWrongShares_reports_large_values [[1; 2]; [2; 9]] 1 7
           {| secret := Some 2; wrongShares := [(2, "9"%string)] |} 2 [9]).
  - reflexivity.
  - simpl. lia.
  - right. left. reflexivity.
  - vm_compute. reflexivity.
  - vm_compute. discriminate.
Defined.

(** X18: [sharesToPoints] throws exactly when some share is an empty array,
    and then it is the [TypeError] of [BigInt(undefined)]. *)
Theorem sharesToPoints_throws_iff (shares : list (list Z)) :
  (sharesToPoints shares = Throw TypeError <-> In [] shares) /\
  (forall e, sharesToPoints shares = Throw e -> e = TypeError).
Proof.
  assert (H : (In [] shares /\ sharesToPoints shares = Throw TypeError)
              \/ (~ In [] shares /\ exists pts, sharesToPoints shares = Ok pts)).
  { unfold sharesToPoints. induction shares as [|s shares IH]; cbn [mapM].
    - right. split; [intros []|eauto].
    - destruct s as [|s0 rest]; cbn [shareToPoint bind].
      + left. split; [left; reflexivity|reflexivity].
      + destruct IH as [[Hin ->]|[Hn [pts ->]]]; cbn [bind].
        * left. split; [right; exact Hin|reflexivity].
        * right. split; [|eauto]. intros [E|Hin]; [discriminate|contradiction]. }
  split; [split|].
  - intros E. destruct H as [[Hin _]|[_ [pts Hp]]]; [exact Hin|congruence].
  - intros Hin. destruct H as [[_ Ht]|[Hn _]]; [exact Ht|contradiction].
  - intros e E. destruct H as [[_ Ht]|[_ [pts Hp]]]; congruence.
Qed.

(** ** Tampering with a share outside the subset *)






(** ** Keys and index bytes *)

Lemma dec_string_of_uint (d : Decimal.uint) :
  DecimalString.NilEmpty.string_of_uint d = hexChars (decDigitsOf d).
Proof.
  unfold hexChars. induction d; simpl; try rewrite IHd; reflexivity.
Qed.

Lemma decDigitsOf_range (d : Decimal.uint) :
  Forall (fun v => 0 <= v < 10) (decDigitsOf d).
Proof.
  induction d; simpl; constructor; (lia || assumption).
Qed.

Lemma of_uint_acc_fold10 (d : Decimal.uint) :
  forall acc, Z.pos (Pos.of_uint_acc d acc) = fold10 (decDigitsOf d) (Z.pos acc).
Proof.
  unfold fold10.
  induction d; intros acc; cbn [Pos.of_uint_acc decDigitsOf fold_left];
    try reflexivity; rewrite IHd; f_equal; lia.
Qed.

Lemma of_uint_fold10 (d : Decimal.uint) :
  Z.of_N (Pos.of_uint d) = fold10 (decDigitsOf d) 0.
Proof.
  induction d; cbn [Pos.of_uint decDigitsOf Z.of_N]; try reflexivity;
    try exact IHd; rewrite of_uint_acc_fold10; reflexivity.
Qed.

Lemma digitValue_hexDigit (v : Z) :
  0 <= v < 16 -> digitValue (hexDigit v) = v.
Proof.
  intros H.
  assert (E : v = 0 \/ v = 1 \/ v = 2 \/ v = 3 \/ v = 4 \/ v = 5 \/ v = 6
              \/ v = 7 \/ v = 8 \/ v = 9 \/ v = 10 \/ v = 11 \/ v = 12
              \/ v = 13 \/ v = 14 \/ v = 15) by lia.
  clear H. repeat (destruct E as [E|E]); subst v; reflexivity.
Qed.

Lemma parseDigits_step (radix : Z) (c : ascii) (s : string) (acc : option Z) :
  parseDigits radix (String c s) acc =
  if (0 <=? digitValue c) && (digitValue c <? radix)
  then parseDigits radix s
         (Some (match acc with Some a => a * radix + digitValue c
                          | None => digitValue c end))
  else acc.
Proof. reflexivity. Qed.

Lemma parseDigits_hexChars (radix : Z) (vals : list Z) :
  radix <= 16 ->
  Forall (fun v => 0 <= v < radix) vals ->
  forall acc,
    parseDigits radix (hexChars vals) (Some acc)
    = Some (fold_left (fun a v => a * radix + v) vals acc).
Proof.
  intros Hr HF. induction HF as [|v vals Hv _ IH]; intros acc; [reflexivity|].
  change (hexChars (v :: vals)) with (String (hexDigit v) (hexChars vals)).
  rewrite parseDigits_step, digitValue_hexDigit by lia.
  replace ((0 <=? v) && (v <? radix)) with true
    by (symmetry; apply andb_true_iff; split; [apply Z.leb_le|apply Z.ltb_lt]; lia).
  apply IH.
Qed.

(** [parseInt] on a string that starts with neither white space nor a sign
    nor a hexadecimal prefix, and on such a string after a minus sign. *)
Lemma parseInt_plain (c : ascii) (s : string) :
  isWhiteSpace c = false ->
  Ascii.eqb c "-" = false -> Ascii.eqb c "+" = false ->
  stripHexPrefix (String c s) = None ->
  parseInt (String c s) 0
  = option_map (Z.mul 1) (parseDigits 10 (String c s) None) /\
  parseInt (String "-" (String c s)) 0
  = option_map (Z.mul (-1)) (parseDigits 10 (String c s) None).
Proof.
  intros Hw Hm Hp Hs. split.
  - unfold parseInt. cbn [trimStart]. rewrite Hw.
    destruct c as [[] [] [] [] [] [] [] []];
      try (vm_compute in Hm; discriminate Hm);
      try (vm_compute in Hp; discriminate Hp);
      cbv beta iota; rewrite Hs; reflexivity.
  - unfold parseInt. cbn [trimStart].
    change (isWhiteSpace "-") with false. cbv beta iota.
    rewrite Hs. reflexivity.
Qed.

Lemma parseInt_decimal (v : Z) (vals : list Z) :
  Forall (fun v => 0 <= v < 10) (v :: vals) ->
  parseInt (hexChars (v :: vals)) 0 = Some (fold10 (v :: vals) 0) /\
  parseInt (String "-" (hexChars (v :: vals))) 0 = Some (- fold10 (v :: vals) 0).
Proof.
  intros HF. inversion HF as [|? ? Hv HF']; subst.
  assert (Hd : parseDigits 10 (hexChars (v :: vals)) None = Some (fold10 (v :: vals) 0)).
  { change (hexChars (v :: vals)) with (String (hexDigit v) (hexChars vals)).
    rewrite parseDigits_step, digitValue_hexDigit by lia.
    replace ((0 <=? v) && (v <? 10)) with true
      by (symmetry; apply andb_true_iff; split; [apply Z.leb_le|apply Z.ltb_lt]; lia).
    rewrite parseDigits_hexChars by (lia || assumption). reflexivity. }
  assert (Hs : stripHexPrefix (hexChars (v :: vals)) = None).
  { assert (E : v = 0 \/ v = 1 \/ v = 2 \/ v = 3 \/ v = 4 \/ v = 5 \/ v = 6
              \/ v = 7 \/ v = 8 \/ v = 9) by lia.
    destruct E as [->|E]; [|repeat (destruct E as [E|E]); subst v; reflexivity].
    destruct vals as [|v2 vals]; [reflexivity|].
    inversion HF' as [|? ? Hv2 _]; subst.
    assert (E : v2 = 0 \/ v2 = 1 \/ v2 = 2 \/ v2 = 3 \/ v2 = 4 \/ v2 = 5 \/ v2 = 6
              \/ v2 = 7 \/ v2 = 8 \/ v2 = 9) by lia.
    repeat (destruct E as [E|E]); subst v2; reflexivity. }
  assert (Hw : isWhiteSpace (hexDigit v) = false
               /\ Ascii.eqb (hexDigit v) "-" = false
               /\ Ascii.eqb (hexDigit v) "+" = false).
  { assert (E : v = 0 \/ v = 1 \/ v = 2 \/ v = 3 \/ v = 4 \/ v = 5 \/ v = 6
              \/ v = 7 \/ v = 8 \/ v = 9) by lia.
    repeat (destruct E as [E|E]); subst v; repeat split; reflexivity. }
  destruct Hw as (Hw & Hm & Hp).
  change (hexChars (v :: vals)) with (String (hexDigit v) (hexChars vals)) in *.
  destruct (parseInt_plain _ _ Hw Hm Hp Hs) as [E1 E2].
  rewrite E1, E2, Hd. cbn [option_map]. split; f_equal; lia.
Qed.

Lemma parseInt_uint (d : Decimal.uint) :
  d <> Decimal.Nil ->
  parseInt (DecimalString.NilZero.string_of_uint d) 0
  = Some (Z.of_N (Pos.of_uint d)) /\
  parseInt (String "-" (DecimalString.NilZero.string_of_uint d)) 0
  = Some (- Z.of_N (Pos.of_uint d)).
Proof.
  intros Hd.
  replace (DecimalString.NilZero.string_of_uint d)
    with (DecimalString.NilEmpty.string_of_uint d)
    by (destruct d; reflexivity || congruence).
  rewrite dec_string_of_uint, of_uint_fold10.
  pose proof (decDigitsOf_range d) as Hr.
  destruct (decDigitsOf d) as [|v vals] eqn:E.
  - destruct d; discriminate || congruence.
  - apply parseInt_decimal. exact Hr.
Qed.

(** The model of [parseInt] reads back the decimal text of every integer. *)
Lemma parseInt_toString (n : Z) : parseInt (toString n) 0 = Some n.
Proof.
  unfold toString. destruct n as [|p|p]; [reflexivity| |];
    cbn [Z.to_int DecimalString.NilZero.string_of_int];
    pose proof (DecimalPos.Unsigned.of_to p) as Hp;
    assert (Hd : Pos.to_uint p <> Decimal.Nil)
      by (intros E; rewrite E in Hp; discriminate Hp);
    destruct (parseInt_uint _ Hd) as [E1 E2].
  - rewrite E1, Hp. reflexivity.
  - rewrite E2, Hp. reflexivity.
Qed.

Lemma Forall2_map_self {A B : Type} (R : A -> B -> Prop) (f : A -> B) (l : list A) :
  (forall a, In a l -> R a (f a)) -> Forall2 R l (map f l).
Proof.
  induction l as [|a l IH]; intros H; simpl; constructor.
  - apply H. left. reflexivity.
  - apply IH. intros a' Ha'. apply H. right. exact Ha'.
Qed.

(** X20: the index byte of a share is the number of its key modulo 256:
    for a record whose key is the decimal text of an integer [n] (of a size
    that [parseInt] reads exactly, below 2^53 in absolute value), the first
    byte of the formatted share is [n mod 256].  Keys 256 apart therefore
    get the same index, and no index is rejected as out of range. *)
Theorem formatSharesFromJSON_index_wraps (data : json) (shares : list (list Z)) :
  formatSharesFromJSON data = Ok shares ->
  Forall2 (fun r s => forall n, Z.abs n < 2 ^ 53 -> fst r = toString n ->
                                hd 0 s = n mod 256)
          (records data) shares.
Proof.
  intros H. apply formatSharesFromJSON_Ok_inv in H. destruct H as (_ & -> & _).
  unfold formattedShares. rewrite combine_map_self, map_map.
  apply Forall2_map_self. intros r _ n _ Hn.
  unfold shareOf. cbn [fst snd hd]. rewrite Hn, parseInt_toString. reflexivity.
Qed.

Lemma formatSharesFromJSON_index_wraps_witness :
  Forall2 (fun r s => forall n, Z.abs n < 2 ^ 53 -> fst r = toString n ->
                                hd 0 s = n mod 256)
          (records [("1"%string, {| base := 10; value := "7" |});
                    ("257"%string, {| base := 16; value := "1F4" |})])
          [[1; 0; 7]; [1; 1; 244]].
Proof.
  apply (formatSharesFromJSON_index_wraps
    [("1"%string, {| base := 10; value := "7" |});
     ("257"%string, {| base := 16; value := "1F4" |})]).
  reflexivity.
Defined.

(** ** [hexStringToUint8Array] on any string *)

(** X21: [hexStringToUint8Array] never fails: for any string of length [n]
    it returns [(n + n mod 2) / 2] values, all of them bytes; a pair of
    characters that is not a hexadecimal number is stored as 0. *)
Theorem hexStringToUint8Array_shape (hex : string) :
  List.length (hexStringToUint8Array hex)
  = ((String.length hex + String.length hex mod 2) / 2)%nat /\
  Forall isByte (hexStringToUint8Array hex) /\
  (forall i, parseInt (substring (i * 2) 2 (evenPad hex)) 16 = None ->
             (i < List.length (hexStringToUint8Array hex))%nat ->
             nth i (hexStringToUint8Array hex) 0 = 0).
Proof.
  repeat split.
  - rewrite hexStringToUint8Array_length. unfold evenPad.
    destruct (Nat.eqb_spec (String.length hex mod 2) 0) as [E|E].
    + rewrite E, Nat.add_0_r. reflexivity.
    + cbn [String.length]. div2 (String.length hex).
      replace (String.length hex mod 2)%nat with 1%nat by lia.
      f_equal. lia.
  - apply hexStringToUint8Array_range.
  - intros i Hnan Hi. unfold hexStringToUint8Array in *. fold (evenPad hex) in *.
    rewrite length_map, length_seq in Hi.
    rewrite (nth_indep _ 0 (toUint8 (parseInt (substring (0 * 2) 2 (evenPad hex)) 16)))
      by (rewrite length_map, length_seq; exact Hi).
    rewrite (map_nth (fun i => toUint8 (parseInt (substring (i * 2) 2 (evenPad hex)) 16))).
    rewrite seq_nth by exact Hi. cbn [Nat.add]. rewrite Hnan. reflexivity.
Qed.
